(** * Circular buffer of fixed-width elements (src/c/buffer/buffer.c)

    A shallow embedding of [buffer.c] / [buffer.h] and the properties of its
    cursor arithmetic, byte transfer primitives and bulk push / pop loops.

    Conventions of the embedding.
    - [unsigned int] is a 32-bit machine integer: a [Z] reduced with [uint]
      wherever the C expression is evaluated in that type.
    - [void *] cursors ([head], [tail]) are byte offsets from [b->data]
      (the source relies on byte-sized arithmetic on [void *]); pointer
      arithmetic itself does not wrap.
    - [byteIndex] and [failedbytes] stay below [b->width], at most 255, so
      their increments are written without reduction.
    - The storage block and the caller's source / destination blocks are
      lists of bytes.  An access outside a block is undefined in C; here a
      load yields [x00] and a store leaves the block unchanged; the
      theorems below show for which sizes the cursors stay inside the
      storage block, and what happens when the size arithmetic wraps. *)

From Stdlib Require Import ZArith Lia List Bool.
From Stdlib.Strings Require Import Byte.
From stdpp Require Import base list.
Import ListNotations.

Open Scope Z_scope.

(** ** Machine integers *)

Definition UINT_MAX : Z := 4294967295.
Definition UCHAR_MAX : Z := 255.

(** Reduction of a mathematical integer to [unsigned int]. *)
Definition uint (z : Z) : Z := z mod (UINT_MAX + 1).

(** ** Memory blocks *)

Definition load (m : list byte) (p : Z) : byte :=
  if 0 <=? p then default x00 (m !! Z.to_nat p) else x00.

Definition store (m : list byte) (p : Z) (v : byte) : list byte :=
  if 0 <=? p then <[Z.to_nat p := v]> m else m.

(** ** buffer.h *)

Definition B_STACK : Z := 0xFF.
Definition B_FILO : Z := 0xFF.
Definition B_QUEUE : Z := 0x7F.
Definition B_FIFO : Z := 0x7F.
Definition B_OVERWRITE : Z := 0xFF.
Definition B_DROP : Z := 0xBF.

(** [struct B_BUFFER].  [data] holds the contents of the storage block that
    [b->data] points to; [head] and [tail] are byte offsets into it. *)
Record buffer_t : Type := mkBuffer {
  data : list byte;
  head : Z;
  tail : Z;
  depth : Z;
  width : Z;
  behavior : Z
}.

(** [union B_BEHAVIOR]: bit-fields [unused:6], [overwrite:1], [stack:1] laid
    out from the least significant bit, which is the layout the constants
    [B_QUEUE = 0x7F] and [B_DROP = 0xBF] are written for. *)
Definition bits_overwrite (b : buffer_t) : bool := Z.testbit (behavior b) 6.
Definition bits_stack (b : buffer_t) : bool := Z.testbit (behavior b) 7.

Definition set_head (b : buffer_t) (h : Z) : buffer_t :=
  mkBuffer (data b) h (tail b) (depth b) (width b) (behavior b).

Definition set_tail (b : buffer_t) (t : Z) : buffer_t :=
  mkBuffer (data b) (head b) t (depth b) (width b) (behavior b).

Definition set_data (b : buffer_t) (m : list byte) : buffer_t :=
  mkBuffer m (head b) (tail b) (depth b) (width b) (behavior b).

(** ** buffer.c *)

(** The offset [(b->depth - 1) * (b->width)], computed in [unsigned int], of
    the last position a cursor may take. *)
Definition last_offset (b : buffer_t) : Z :=
  uint (uint (depth b - 1) * width b).

(** Heap bookkeeping for [newBuffer]: the outcome of each allocation is an
    input, and the number of blocks still allocated is threaded through. *)
Definition malloc_wrapper (ok : bool) (live : nat) : bool * nat :=
  if ok then (true, S live) else (false, live).

Definition calloc (ok : bool) (nmemb size : Z) (live : nat)
  : option (list byte) * nat :=
  if ok then (Some (repeat x00 (Z.to_nat (nmemb * size))), S live)
  else (None, live).

Definition free (live : nat) : nat := Nat.pred live.

Definition newBuffer (wrapper_ok data_ok : bool)
    (numberOfElements elementSizeInBytes behavior : Z)
  : option buffer_t * nat :=
  let '(got_b, live) := malloc_wrapper wrapper_ok 0%nat in
  if negb got_b then (None, live)
  else
    let '(blk, live) :=
      calloc data_ok (uint (numberOfElements + 1)) elementSizeInBytes live in
    match blk with
    | None => (None, free live)
    | Some m =>
        (Some {| data := m; head := 0; tail := 0;
                 depth := uint (numberOfElements + 1);
                 width := elementSizeInBytes;
                 behavior := behavior |}, live)
    end.

Definition isBufferEmpty (b : buffer_t) : bool := head b =? tail b.

Definition isBufferFull (b : buffer_t) : bool :=
  (tail b =? head b + 1) || ((tail b =? 0) && (last_offset b <=? head b)).

(** [increment] and [decrement] receive the address of one of the two
    cursors; here they map the cursor's offset to its new offset. *)
Definition increment (b : buffer_t) (ht : Z) : Z :=
  if ht <? last_offset b then ht + 1 else 0.

Definition decrement (b : buffer_t) (ht : Z) : Z :=
  if 0 <? ht then ht - 1 else last_offset b.

Definition popByte (b : buffer_t) : buffer_t * byte :=
  if bits_stack b then
    let b' := set_head b (decrement b (head b)) in
    (b', load (data b') (head b'))
  else
    (set_tail b (increment b (tail b)), load (data b) (tail b)).

Definition pushByte (b : buffer_t) (d : byte) : buffer_t :=
  let b1 := if isBufferFull b && bits_overwrite b
            then set_tail b (increment b (tail b)) else b in
  let b2 := set_data b1 (store (data b1) (head b1) d) in
  set_head b2 (increment b2 (head b2)).

(** *** popFromBuffer *)

(** Outcome of a call: the buffer, the caller's block, the returned count,
    and [undone], the number of iterations the partial-element loop ran
    (not visible to the C caller; recorded for the occupancy invariant). *)
Record outcome : Type := mkOutcome {
  buf : buffer_t;
  mem : list byte;
  failed : Z;
  undone : Z
}.

(** Inner [for (byteIndex ...; byteIndex < b->width; byteIndex++)] of
    [popFromBuffer], with [n] iterations left.  [inr] carries the state at
    the point the buffer was found empty, and the [byteIndex] there. *)
Fixpoint pop_bytes (n : nat) (b : buffer_t) (d : list byte)
    (elementIndex byteIndex : Z)
  : buffer_t * list byte + buffer_t * list byte * Z :=
  match n with
  | O => inl (b, d)
  | S n' =>
      if negb (isBufferEmpty b) then
        let '(b', x) := popByte b in
        let d' :=
          if bits_stack b
          then store d (uint (uint (elementIndex + 1) * width b) - 1 - byteIndex) x
          else store d (uint (elementIndex * width b) + byteIndex) x in
        pop_bytes n' b' d' elementIndex (byteIndex + 1)
      else inr (b, d, byteIndex)
  end.

(** [for (failedbytes = byteIndex; failedbytes > 0; failedbytes--)] of
    [popFromBuffer]. *)
Fixpoint pop_undo (failedbytes : nat) (b : buffer_t) (d : list byte)
    (elementIndex : Z) : buffer_t :=
  match failedbytes with
  | O => b
  | S k =>
      pop_undo k
        (pushByte b
           (load d (uint (elementIndex * width b) + Z.of_nat failedbytes)))
        d elementIndex
  end.

(** Outer [for (elementIndex ...; elementIndex < l; elementIndex++)], with
    [n] iterations left. *)
Fixpoint pop_elements (n : nat) (b : buffer_t) (d : list byte)
    (l elementIndex : Z) : outcome :=
  match n with
  | O => mkOutcome b d 0 0
  | S n' =>
      match pop_bytes (Z.to_nat (width b)) b d elementIndex 0 with
      | inl (b', d') => pop_elements n' b' d' l (uint (elementIndex + 1))
      | inr (b', d', byteIndex) =>
          mkOutcome (pop_undo (Z.to_nat byteIndex) b' d' elementIndex) d'
            (uint (l - elementIndex)) byteIndex
      end
  end.

Definition popFromBuffer (b : buffer_t) (d : list byte) (l : Z) : outcome :=
  pop_elements (Z.to_nat l) b d l 0.

(** *** pushToBuffer *)

(** Inner loop of [pushToBuffer]; [inr] carries the state at the first byte
    that cannot be pushed, and the [byteIndex] there. *)
Fixpoint push_bytes (n : nat) (b : buffer_t) (d : list byte)
    (elementIndex byteIndex : Z) : buffer_t + buffer_t * Z :=
  match n with
  | O => inl b
  | S n' =>
      if negb (isBufferFull b) || bits_overwrite b then
        push_bytes n'
          (pushByte b (load d (uint (elementIndex * width b) + byteIndex)))
          d elementIndex (byteIndex + 1)
      else inr (b, byteIndex)
  end.

(** [for (failedbytes = byteIndex; failedbytes > 0; failedbytes--)] of
    [pushToBuffer]: one [decrement] of [head] per iteration. *)
Fixpoint push_undo (failedbytes : nat) (b : buffer_t) : buffer_t :=
  match failedbytes with
  | O => b
  | S k => push_undo k (set_head b (decrement b (head b)))
  end.

Fixpoint push_elements (n : nat) (b : buffer_t) (d : list byte)
    (l elementIndex : Z) : outcome :=
  match n with
  | O => mkOutcome b d 0 0
  | S n' =>
      match push_bytes (Z.to_nat (width b)) b d elementIndex 0 with
      | inl b' => push_elements n' b' d l (uint (elementIndex + 1))
      | inr (b', byteIndex) =>
          mkOutcome (push_undo (Z.to_nat byteIndex) b') d
            (uint (l - elementIndex)) byteIndex
      end
  end.

Definition pushToBuffer (b : buffer_t) (d : list byte) (l : Z) : outcome :=
  push_elements (Z.to_nat l) b d l 0.

(** ** Representation: cursor range, occupancy and logical contents *)

(** Both cursors lie between offset 0 and [last_offset]. *)
Definition cursors_ok (b : buffer_t) : Prop :=
  0 <= head b <= last_offset b /\ 0 <= tail b <= last_offset b.

(** Number of occupied bytes: the distance from [tail] to [head] around the
    ring of [last_offset b + 1] byte positions. *)
Definition occupancy (b : buffer_t) : Z :=
  if tail b <=? head b then head b - tail b
  else head b - tail b + (last_offset b + 1).

(** The position [i] bytes after position [p] on the ring. *)
Definition ring_pos (b : buffer_t) (p i : Z) : Z :=
  if p + i <=? last_offset b then p + i else p + i - (last_offset b + 1).

(** The occupied bytes, oldest first. *)
Definition contents (b : buffer_t) : list byte :=
  map (fun i => load (data b) (ring_pos b (tail b) (Z.of_nat i)))
      (seq 0 (Z.to_nat (occupancy b))).

(** The storage size [(capacity + 1) * elementWidth] fits [unsigned int],
    so the size arithmetic of the source does not wrap. *)
Definition representable (capacity elementWidth : Z) : Prop :=
  (capacity + 1) * elementWidth <= UINT_MAX.

(** The fields a push or pop never changes: [depth], [width], [behavior]
    and the size of the storage block. *)
Definition same_shape (b b' : buffer_t) : Prop :=
  depth b' = depth b /\ width b' = width b /\ behavior b' = behavior b /\
  length (data b') = length (data b).

(** The requested number of elements: one less than the slot count. *)
Definition capacity (b : buffer_t) : Z := depth b - 1.

(** Representation invariant of a constructed buffer. *)
Definition buffer_ok (b : buffer_t) : Prop :=
  0 < width b <= UCHAR_MAX /\ 0 < capacity b /\
  representable (capacity b) (width b) /\
  Z.of_nat (length (data b)) = depth b * width b /\
  cursors_ok b.

(** The [n] bytes of a block from offset [off] on, as the push loops read
    them. *)
Fixpoint bytes_at (d : list byte) (off : Z) (n : nat) : list byte :=
  match n with
  | O => []
  | S n' => load d off :: bytes_at d (off + 1) n'
  end.

(** A block after the bytes [xs] were stored at offsets [off], [off + 1],
    ... *)
Fixpoint blit (d : list byte) (off : Z) (xs : list byte) : list byte :=
  match xs with
  | [] => d
  | x :: xs' => blit (store d off x) (off + 1) xs'
  end.

(** A sequence of [pushToBuffer] calls, each passing the elements [es]
    back to back with count [length es]; yields the final buffer and the
    counts the calls returned. *)
Fixpoint push_calls (b : buffer_t) (calls : list (list (list byte)))
  : buffer_t * list Z :=
  match calls with
  | [] => (b, [])
  | es :: rest =>
      let o := pushToBuffer b (concat es) (Z.of_nat (length es)) in
      let '(b', rs) := push_calls (buf o) rest in
      (b', failed o :: rs)
  end.

(** ** The specification's slot-granular reading of the cursors *)

(** Following the specification's wording: [advance] moves a cursor to the
    next slot, one [elementWidth]-sized unit further, and wraps from the
    last slot to slot 0. *)
Definition spec_advance (b : buffer_t) (c : Z) : Z :=
  if c <? last_offset b then c + width b else 0.

(** Following the specification's wording: [retreat] moves a cursor to the
    previous slot and wraps from slot 0 to the last slot. *)
Definition spec_retreat (b : buffer_t) (c : Z) : Z :=
  if 0 <? c then c - width b else last_offset b.

(** Following the specification's wording: full iff the slot one past
    [head] equals [tail], or [tail] is at the start of storage and [head]
    is at the last slot. *)
Definition spec_isFull (b : buffer_t) : bool :=
  (spec_advance b (head b) =? tail b)
  || ((tail b =? 0) && (head b =? last_offset b)).

(** The same wording read on slot indices: the slot a byte offset falls in. *)
Definition slot_of (b : buffer_t) (c : Z) : Z := c / width b.

Definition spec_isFull_slots (b : buffer_t) : bool :=
  ((slot_of b (head b) + 1) mod depth b =? slot_of b (tail b))
  || ((tail b =? 0) && (slot_of b (head b) =? depth b - 1)).

(** ** Call sequences through the public interface *)

Inductive call : Type :=
  | Push (d : list byte) (l : Z)
  | Pop (d : list byte) (l : Z).

Definition do_call (b : buffer_t) (c : call) : buffer_t :=
  match c with
  | Push d l => buf (pushToBuffer b d l)
  | Pop d l => buf (popFromBuffer b d l)
  end.

Definition run (b : buffer_t) (cs : list call) : buffer_t :=
  fold_left do_call cs b.

(** The buffers a caller can hold: a successfully constructed buffer of
    [capacity] elements of [elementWidth] bytes, after any number of
    [pushToBuffer] and [popFromBuffer] calls with arbitrary blocks and
    arbitrary [unsigned int] counts. *)
Inductive reachable (capacity elementWidth config : Z) : buffer_t -> Prop :=
  | reach_new b live :
      newBuffer true true capacity elementWidth config = (Some b, live) ->
      reachable capacity elementWidth config b
  | reach_push b d l :
      reachable capacity elementWidth config b ->
      0 <= l <= UINT_MAX ->
      reachable capacity elementWidth config (buf (pushToBuffer b d l))
  | reach_pop b d l :
      reachable capacity elementWidth config b ->
      0 <= l <= UINT_MAX ->
      reachable capacity elementWidth config (buf (popFromBuffer b d l)).

(** ** Worked configurations *)

(** The buffer [newBuffer(capacity, elementWidth, config)] returns when both
    allocations succeed. *)
Definition fresh (capacity elementWidth config : Z) : buffer_t :=
  {| data := repeat x00 (Z.to_nat (uint (capacity + 1) * elementWidth));
     head := 0; tail := 0;
     depth := uint (capacity + 1);
     width := elementWidth;
     behavior := config |}.

(** Three-element buffer of 4-byte elements, queue, dropping. *)
Definition queue34 : buffer_t := fresh 3 4 (Z.land B_QUEUE B_DROP).

(** Three-element buffer of 4-byte elements, stack, dropping. *)
Definition stack34 : buffer_t := fresh 3 4 (Z.land B_STACK B_DROP).

Definition twelve : list byte :=
  [x01; x02; x03; x04; x05; x06; x07; x08; x09; x0a; x0b; x0c].

(** [queue34] after three rounds of filling and draining, a fourth fill,
    popping two elements and pushing two more. *)
Definition queue34_refilled : buffer_t :=
  run queue34
    [Push twelve 3; Pop twelve 3; Push twelve 3; Pop twelve 3;
     Push twelve 3; Pop twelve 3; Push twelve 3; Pop twelve 2;
     Push twelve 2].

(** A queue holding two bytes of an incomplete 4-byte element. *)
Definition queue_partial : buffer_t :=
  {| data := [x61; x62] ++ repeat x00 14; head := 2; tail := 0;
     depth := 4; width := 4; behavior := Z.land B_QUEUE B_DROP |}.

(** A stack holding three bytes of an incomplete 4-byte element. *)
Definition stack_partial : buffer_t :=
  {| data := [x61; x62; x63] ++ repeat x00 13; head := 3; tail := 0;
     depth := 4; width := 4; behavior := Z.land B_STACK B_DROP |}.

Definition dest4 : list byte := [x11; x22; x33; x44].

(** 4-byte elements of the overwrite scenario, least significant byte
    first. *)
Definition int_bytes (z : Z) : list byte :=
  map (fun k => match Byte.of_N (Z.to_N (Z.shiftr z (8 * k) mod 256)) with
                | Some x => x
                | None => x00
                end) [0; 1; 2; 3].

(** The last [n] elements of a list (all of it when it is shorter). *)
Definition keep_last {A : Type} (n : nat) (l : list A) : list A :=
  drop (length l - n) l.

(** A full three-element queue of 4-byte elements, dropping. *)
Definition queue34_full : buffer_t :=
  run queue34 [Push twelve 3].

(** A three-element queue of 4-byte elements, overwriting. *)
Definition ring34 : buffer_t := fresh 3 4 (Z.land B_QUEUE B_OVERWRITE).

(** The bytes [pushToBuffer] reads from the source block for [n] elements
    from [elementIndex] on: element [e] is read at offset
    [e * width] reduced to [unsigned int]. *)
Fixpoint source_bytes (d : list byte) (w : Z) (n : nat) (elementIndex : Z)
  : list byte :=
  match n with
  | O => []
  | S n' =>
      bytes_at d (uint (elementIndex * w)) (Z.to_nat w)
      ++ source_bytes d w n' (uint (elementIndex + 1))
  end.

(** Buffers whose size arithmetic wraps in [unsigned int].
    [newBuffer(UINT_MAX, 4, ...)]: the slot count [numberOfElements + 1]
    wraps to 0. *)
Definition slots_wrap : buffer_t := fresh 4294967295 4 (Z.land B_QUEUE B_DROP).

(** [newBuffer(2^30, 4, ...)]: the last offset [(depth - 1) * width] wraps
    to 0. *)
Definition offset_wraps_to_0 : buffer_t :=
  fresh 1073741824 4 (Z.land B_QUEUE B_DROP).

(** [newBuffer(1431655766, 3, ...)]: the last offset wraps to 2, dropping
    and overwriting. *)
Definition offset_wraps_to_2 : buffer_t :=
  fresh 1431655766 3 (Z.land B_QUEUE B_DROP).

Definition offset_wraps_to_2_overwriting : buffer_t :=
  fresh 1431655766 3 (Z.land B_QUEUE B_OVERWRITE).

Definition three : list byte := [x01; x02; x03].

Definition four : list byte := [x01; x02; x03; x04].

(** ** Machine arithmetic *)

Lemma uint_range z : 0 <= uint z <= UINT_MAX.
Proof.
  unfold uint, UINT_MAX.
  pose proof (Z.mod_pos_bound z (4294967295 + 1)). lia.
Qed.

Lemma uint_small z : 0 <= z <= UINT_MAX -> uint z = z.
Proof. unfold uint, UINT_MAX. intros H. apply Z.mod_small. lia. Qed.

Lemma last_offset_range b : 0 <= last_offset b <= UINT_MAX.
Proof. apply uint_range. Qed.

(** Case analysis on the integer comparisons of the source. *)
Ltac zcases :=
  repeat match goal with
    | |- context [?a <? ?c] => destruct (Z.ltb_spec a c)
    | |- context [?a <=? ?c] => destruct (Z.leb_spec a c)
    | |- context [?a =? ?c] => destruct (Z.eqb_spec a c)
    | H : context [?a <? ?c] |- _ => destruct (Z.ltb_spec a c)
    | H : context [?a <=? ?c] |- _ => destruct (Z.leb_spec a c)
    | H : context [?a =? ?c] |- _ => destruct (Z.eqb_spec a c)
    end.

(** ** Blocks *)

Lemma store_length m p v : length (store m p v) = length m.
Proof. unfold store. destruct (0 <=? p); [apply length_insert | reflexivity]. Qed.

Lemma load_store_same m p v :
  0 <= p < Z.of_nat (length m) -> load (store m p v) p = v.
Proof.
  intros H. unfold load, store.
  destruct (Z.leb_spec 0 p); [| lia].
  rewrite list_lookup_insert_eq by lia. reflexivity.
Qed.

Lemma load_store_other m p q v : p <> q -> load (store m p v) q = load m q.
Proof.
  intros H. unfold load, store.
  destruct (Z.leb_spec 0 p), (Z.leb_spec 0 q); try reflexivity.
  rewrite list_lookup_insert_ne by lia. reflexivity.
Qed.

(** ** Cursor stepping *)

Lemma increment_range b c :
  0 <= c <= last_offset b -> 0 <= increment b c <= last_offset b.
Proof. unfold increment. intros H. zcases; lia. Qed.

Lemma decrement_range b c :
  0 <= c <= last_offset b -> 0 <= decrement b c <= last_offset b.
Proof. unfold decrement. intros H. zcases; lia. Qed.

Lemma decrement_increment b c :
  0 <= c <= last_offset b -> decrement b (increment b c) = c.
Proof. unfold decrement, increment. intros H. zcases; lia. Qed.

Lemma increment_decrement b c :
  0 <= c <= last_offset b -> increment b (decrement b c) = c.
Proof. unfold decrement, increment. intros H. zcases; lia. Qed.

Lemma increment_ring_pos b c :
  0 <= c <= last_offset b -> increment b c = ring_pos b c 1.
Proof. unfold increment, ring_pos. intros H. zcases; lia. Qed.

(** ** Empty and full in terms of occupancy *)

Lemma occupancy_range b :
  cursors_ok b -> 0 <= occupancy b <= last_offset b.
Proof. unfold cursors_ok, occupancy. intros H. zcases; lia. Qed.

Lemma isBufferEmpty_occupancy b :
  cursors_ok b -> isBufferEmpty b = (occupancy b =? 0).
Proof. unfold cursors_ok, isBufferEmpty, occupancy. intros H. zcases; lia. Qed.

Lemma isBufferFull_occupancy b :
  cursors_ok b -> isBufferFull b = (occupancy b =? last_offset b).
Proof.
  unfold cursors_ok, isBufferFull, occupancy. intros H.
  zcases; simpl; lia.
Qed.

(** ** Byte transfer primitives *)

Lemma pushByte_frame b x :
  depth (pushByte b x) = depth b /\ width (pushByte b x) = width b /\
  behavior (pushByte b x) = behavior b /\
  length (data (pushByte b x)) = length (data b).
Proof.
  unfold pushByte. destruct (isBufferFull b && bits_overwrite b); simpl;
    rewrite store_length; auto.
Qed.

Lemma pushByte_last_offset b x : last_offset (pushByte b x) = last_offset b.
Proof.
  unfold last_offset. destruct (pushByte_frame b x) as (-> & -> & _). reflexivity.
Qed.

Lemma popByte_frame b :
  depth (fst (popByte b)) = depth b /\ width (fst (popByte b)) = width b /\
  behavior (fst (popByte b)) = behavior b /\ data (fst (popByte b)) = data b.
Proof. unfold popByte. destruct (bits_stack b); simpl; auto. Qed.

Lemma popByte_last_offset b : last_offset (fst (popByte b)) = last_offset b.
Proof.
  unfold last_offset. destruct (popByte_frame b) as (-> & -> & _). reflexivity.
Qed.

Lemma popByte_cursors b : cursors_ok b -> cursors_ok (fst (popByte b)).
Proof.
  intros [Hh Ht]. unfold cursors_ok. rewrite popByte_last_offset.
  unfold popByte.
  destruct (bits_stack b); simpl; auto using increment_range, decrement_range.
Qed.

(** Effect of [pushByte] on the cursors, by case. *)
Lemma pushByte_head b x :
  head (pushByte b x) = increment b (head b).
Proof.
  unfold pushByte. destruct (isBufferFull b && bits_overwrite b); reflexivity.
Qed.

Lemma pushByte_tail b x :
  tail (pushByte b x) =
  if isBufferFull b && bits_overwrite b then increment b (tail b) else tail b.
Proof.
  unfold pushByte. destruct (isBufferFull b && bits_overwrite b); reflexivity.
Qed.

Lemma pushByte_data b x :
  data (pushByte b x) = store (data b) (head b) x.
Proof.
  unfold pushByte. destruct (isBufferFull b && bits_overwrite b); reflexivity.
Qed.

Lemma pushByte_cursors b x : cursors_ok b -> cursors_ok (pushByte b x).
Proof.
  intros [Hh Ht]. unfold cursors_ok.
  rewrite pushByte_last_offset, pushByte_head, pushByte_tail.
  pose proof (increment_range b _ Hh). pose proof (increment_range b _ Ht).
  destruct (isBufferFull b && bits_overwrite b); auto.
Qed.

Lemma pushByte_occupancy b x :
  cursors_ok b ->
  occupancy (pushByte b x) =
  if isBufferFull b
  then (if bits_overwrite b then last_offset b else 0)
  else occupancy b + 1.
Proof.
  intros Hc. rewrite isBufferFull_occupancy by assumption.
  unfold occupancy at 1.
  rewrite pushByte_last_offset, pushByte_head, pushByte_tail.
  rewrite isBufferFull_occupancy by assumption.
  destruct Hc as [Hh Ht]. unfold occupancy, increment.
  destruct (bits_overwrite b); rewrite ?andb_true_r, ?andb_false_r;
    zcases; lia.
Qed.

Lemma popByte_occupancy b :
  cursors_ok b -> isBufferEmpty b = false ->
  occupancy (fst (popByte b)) = occupancy b - 1.
Proof.
  intros [Hh Ht] He. unfold isBufferEmpty in He.
  unfold occupancy at 1. rewrite popByte_last_offset.
  unfold popByte, occupancy, increment, decrement.
  destruct (bits_stack b); simpl; zcases; lia.
Qed.

(** ** Construction *)

Lemma newBuffer_success n w cfg :
  newBuffer true true n w cfg = (Some (fresh n w cfg), 2%nat).
Proof. reflexivity. Qed.

Lemma representable_bounds n w :
  0 <= n -> 0 < w -> representable n w ->
  n + 1 <= UINT_MAX /\ 0 <= n * w <= UINT_MAX.
Proof. unfold representable. intros Hn Hw Hr. split; nia. Qed.

Lemma fresh_depth n w cfg :
  0 <= n -> 0 < w -> representable n w -> depth (fresh n w cfg) = n + 1.
Proof.
  intros Hn Hw Hr. destruct (representable_bounds n w) as [H1 H2]; auto.
  simpl. apply uint_small. lia.
Qed.

Lemma fresh_last_offset n w cfg :
  0 <= n -> 0 < w -> representable n w ->
  last_offset (fresh n w cfg) = n * w.
Proof.
  intros Hn Hw Hr. destruct (representable_bounds n w) as [H1 H2]; auto.
  unfold last_offset. rewrite fresh_depth by assumption. simpl.
  replace (n + 1 - 1) with n by lia.
  rewrite (uint_small n) by lia. apply uint_small; lia.
Qed.

(** X17.  For every capacity > 0 and element width > 0 whose storage size
    [(capacity + 1) * elementWidth] is representable in [unsigned int],
    [newBuffer] either fails, returning no buffer and leaving
    no block allocated, or returns a buffer whose storage is
    [(capacity + 1) * elementWidth] zero bytes, with both cursors at the
    start of storage; construction succeeds exactly when both allocations
    do, and the new buffer is empty and not full. *)
Theorem newBuffer_fresh (wrapper_ok data_ok : bool) (n w cfg : Z) :
  0 < n -> 0 < w <= UCHAR_MAX -> representable n w ->
  match newBuffer wrapper_ok data_ok n w cfg with
  | (Some b, live) =>
      wrapper_ok && data_ok = true /\ live = 2%nat /\
      data b = repeat x00 (Z.to_nat ((n + 1) * w)) /\
      head b = 0 /\ tail b = 0 /\
      width b = w /\ depth b = n + 1 /\ behavior b = cfg /\
      isBufferEmpty b = true /\ isBufferFull b = false
  | (None, live) => wrapper_ok && data_ok = false /\ live = 0%nat
  end.
Proof.
  intros Hn Hw Hr.
  destruct (representable_bounds n w) as [H1 H2]; [lia | lia | assumption |].
  destruct wrapper_ok, data_ok; simpl; auto.
  pose proof (fresh_last_offset n w cfg) as HL.
  unfold fresh, isBufferFull, last_offset in *. simpl in *.
  rewrite HL by (assumption || lia). rewrite (uint_small (n + 1)) by lia.
  repeat split; auto.
  zcases; auto; nia.
Qed.

Lemma newBuffer_fresh_witness :
  match newBuffer true true 3 4 (Z.land B_QUEUE B_DROP) with
  | (Some b, live) =>
      true && true = true /\ live = 2%nat /\
      data b = repeat x00 (Z.to_nat ((3 + 1) * 4)) /\
      head b = 0 /\ tail b = 0 /\
      width b = 4 /\ depth b = 3 + 1 /\ behavior b = Z.land B_QUEUE B_DROP /\
      isBufferEmpty b = true /\ isBufferFull b = false
  | (None, live) => true && true = false /\ live = 0%nat
  end.
Proof.
  apply (newBuffer_fresh true true 3 4 (Z.land B_QUEUE B_DROP));
    unfold representable, UCHAR_MAX, UINT_MAX; lia.
Defined.

(** Discharges [cursors_ok] and similar closed range facts by evaluation. *)
Ltac by_evaluation :=
  vm_compute; repeat split; (reflexivity || discriminate).

(** ** Fullness test *)

(** C1 (as amended).  For every buffer, [isBufferFull] holds exactly when
    the byte position one past [head], wrapping after the last offset back
    to offset 0, equals [tail]; equivalently [tail] is one byte past [head]
    or [tail] is at the start of storage and [head] at the last offset;
    equivalently every byte position but one is occupied. *)
Theorem isBufferFull_byte_step (b : buffer_t) :
  cursors_ok b ->
  (isBufferFull b = true <-> increment b (head b) = tail b) /\
  (isBufferFull b = true <->
     tail b = head b + 1 \/ (tail b = 0 /\ head b = last_offset b)) /\
  (isBufferFull b = true <-> occupancy b = last_offset b).
Proof.
  intros Hc. pose proof (isBufferFull_occupancy b Hc) as Ho.
  destruct Hc as [Hh Ht].
  unfold isBufferFull, increment, occupancy in *.
  repeat split; intros; zcases; simpl in *; try discriminate; lia.
Qed.

Lemma isBufferFull_byte_step_witness :
  cursors_ok queue34_refilled /\
  (isBufferFull queue34_refilled = true <->
   increment queue34_refilled (head queue34_refilled) = tail queue34_refilled).
Proof.
  assert (H : cursors_ok queue34_refilled) by by_evaluation.
  split; [exact H | apply (isBufferFull_byte_step queue34_refilled H)].
Defined.

(** C1 (as stated) fails: after the calls of [queue34_refilled] the queue
    holds three 4-byte elements and [isBufferFull] reports full, with
    [head] at offset 4 and [tail] at offset 5; the slot one past [head] is
    not [tail], read on offsets or on slot indices. *)
Lemma isBufferFull_not_slot_step :
  head queue34_refilled = 4 /\ tail queue34_refilled = 5 /\
  occupancy queue34_refilled = 3 * 4 /\
  isBufferFull queue34_refilled = true /\
  spec_isFull queue34_refilled = false /\
  spec_isFull_slots queue34_refilled = false /\
  isBufferFull queue34_refilled <> spec_isFull queue34_refilled.
Proof. by_evaluation. Qed.

(** ** Cursor stepping is byte-granular *)

(** C2 (as amended).  For every buffer and every cursor offset in range,
    [increment] moves the cursor one byte forward and [decrement] one byte
    back, modulo the [last_offset b + 1] byte positions of the ring: the
    last offset wraps to 0 and 0 wraps to the last offset. *)
Theorem cursor_step_one_byte (b : buffer_t) (c : Z) :
  0 <= c <= last_offset b ->
  increment b c = (c + 1) mod (last_offset b + 1) /\
  decrement b c = (c - 1) mod (last_offset b + 1) /\
  decrement b (increment b c) = c /\ increment b (decrement b c) = c.
Proof.
  intros Hc. repeat split;
    auto using decrement_increment, increment_decrement.
  - unfold increment. zcases.
    + symmetry. apply Z.mod_small. lia.
    + replace c with (last_offset b) by lia.
      symmetry. apply Z_mod_same_full.
  - unfold decrement. zcases.
    + symmetry. apply Z.mod_small. lia.
    + apply Z.mod_unique with (q := -1); lia.
Qed.

Lemma cursor_step_one_byte_witness :
  0 <= 12 <= last_offset queue34 /\
  increment queue34 12 = (12 + 1) mod (last_offset queue34 + 1) /\
  decrement queue34 12 = (12 - 1) mod (last_offset queue34 + 1).
Proof.
  assert (H : 0 <= 12 <= last_offset queue34) by by_evaluation.
  split; [exact H |].
  destruct (cursor_step_one_byte queue34 12 H) as (Hi & Hd & _).
  split; [exact Hi | exact Hd].
Defined.

(** C2 (as stated) fails: in a buffer of 4-byte elements [increment] takes
    offset 0 to offset 1, not to the next slot at offset 4, and [decrement]
    takes offset 12 to offset 11, not to the previous slot at offset 8. *)
Lemma cursor_step_not_one_slot :
  width queue34 = 4 /\
  increment queue34 0 = 1 /\ spec_advance queue34 0 = 4 /\
  decrement queue34 12 = 11 /\ spec_retreat queue34 12 = 8 /\
  increment queue34 0 <> spec_advance queue34 0 /\
  decrement queue34 12 <> spec_retreat queue34 12.
Proof. by_evaluation. Qed.

(** ** Popping from an empty buffer *)

(** C6.  For every empty buffer and every requested count [l],
    [popFromBuffer] returns [l] and leaves the buffer (cursors and storage)
    and the destination block unchanged; the buffer is still empty. *)
Theorem pop_empty_unchanged (b : buffer_t) (d : list byte) (l : Z) :
  0 < width b -> 0 <= l <= UINT_MAX ->
  isBufferEmpty b = true ->
  failed (popFromBuffer b d l) = l /\
  buf (popFromBuffer b d l) = b /\
  mem (popFromBuffer b d l) = d /\
  isBufferEmpty (buf (popFromBuffer b d l)) = true.
Proof.
  intros Hw Hl He. unfold popFromBuffer.
  destruct (Z.to_nat l) as [| n] eqn:En; simpl.
  - repeat split; auto. lia.
  - destruct (Z.to_nat (width b)) as [| k] eqn:Ek; [lia |].
    simpl. rewrite He. simpl.
    rewrite Z.sub_0_r, uint_small by lia. auto.
Qed.

Lemma pop_empty_unchanged_witness :
  failed (popFromBuffer queue34 dest4 3) = 3 /\
  buf (popFromBuffer queue34 dest4 3) = queue34 /\
  mem (popFromBuffer queue34 dest4 3) = dest4 /\
  isBufferEmpty (buf (popFromBuffer queue34 dest4 3)) = true.
Proof.
  apply (pop_empty_unchanged queue34 dest4 3); by_evaluation.
Defined.

(** ** Overwrite scenario *)

(** C7.  A queue of capacity 3 and element width 4 under the overwrite
    policy: pushing 10, 20, 30, 40 one call each reports 0 failed every
    time, and popping 3 elements then reports 0 failed and delivers 20, 30,
    40 in that order, leaving the buffer empty.  Pushing the four elements
    in one call gives the same result. *)
Theorem overwrite_scenario :
  let b0 := fresh 3 4 (Z.land B_QUEUE B_OVERWRITE) in
  let p1 := pushToBuffer b0 (int_bytes 10) 1 in
  let p2 := pushToBuffer (buf p1) (int_bytes 20) 1 in
  let p3 := pushToBuffer (buf p2) (int_bytes 30) 1 in
  let p4 := pushToBuffer (buf p3) (int_bytes 40) 1 in
  let q := popFromBuffer (buf p4) (repeat x00 12) 3 in
  let p := pushToBuffer b0
             (int_bytes 10 ++ int_bytes 20 ++ int_bytes 30 ++ int_bytes 40) 4 in
  let q' := popFromBuffer (buf p) (repeat x00 12) 3 in
  newBuffer true true 3 4 (Z.land B_QUEUE B_OVERWRITE) = (Some b0, 2%nat) /\
  bits_stack b0 = false /\ bits_overwrite b0 = true /\
  failed p1 = 0 /\ failed p2 = 0 /\ failed p3 = 0 /\ failed p4 = 0 /\
  failed q = 0 /\
  mem q = int_bytes 20 ++ int_bytes 30 ++ int_bytes 40 /\
  isBufferEmpty (buf q) = true /\
  failed p = 0 /\ failed q' = 0 /\
  mem q' = int_bytes 20 ++ int_bytes 30 ++ int_bytes 40.
Proof. by_evaluation. Qed.

(** ** Partial-element push-back of popFromBuffer *)

(** C3, evaluated.  A queue holding the two bytes [x61 x62] of an
    incomplete 4-byte element: popping one element returns 1 after running
    the push-back loop twice, but the buffer then holds [x33 x62] (the
    destination byte at index 2, which the pop never wrote, then the byte
    popped second) with both cursors moved two bytes on, not [x61 x62].
    A stack holding [x61 x62 x63]: the push-back leaves [x63 x62 x61]. *)
Theorem pop_undo_does_not_restore :
  let o := popFromBuffer queue_partial dest4 1 in
  let s := popFromBuffer stack_partial dest4 1 in
  contents queue_partial = [x61; x62] /\
  failed o = 1 /\ undone o = 2 /\
  contents (buf o) = [x33; x62] /\
  contents (buf o) <> contents queue_partial /\
  head (buf o) = 4 /\ tail (buf o) = 2 /\
  contents stack_partial = [x61; x62; x63] /\
  failed s = 1 /\ undone s = 3 /\
  contents (buf s) = [x63; x62; x61] /\
  contents (buf s) <> contents stack_partial /\
  data (buf s) <> data stack_partial.
Proof. by_evaluation. Qed.

(** ** Shape and cursor range are preserved *)

Lemma same_shape_refl b : same_shape b b.
Proof. unfold same_shape. auto. Qed.

Lemma same_shape_trans b1 b2 b3 :
  same_shape b1 b2 -> same_shape b2 b3 -> same_shape b1 b3.
Proof. unfold same_shape. intros (? & ? & ? & ?) (? & ? & ? & ?). repeat split; congruence. Qed.

Lemma same_shape_last_offset b b' :
  same_shape b b' -> last_offset b' = last_offset b.
Proof. intros (Hd & Hw & _). unfold last_offset. rewrite Hd, Hw. reflexivity. Qed.

Lemma same_shape_bits b b' :
  same_shape b b' ->
  bits_overwrite b' = bits_overwrite b /\ bits_stack b' = bits_stack b.
Proof.
  intros (_ & _ & Hb & _). unfold bits_overwrite, bits_stack. rewrite Hb. auto.
Qed.

Lemma pushByte_shape b x : same_shape b (pushByte b x).
Proof. apply pushByte_frame. Qed.

Lemma popByte_shape b : same_shape b (fst (popByte b)).
Proof.
  destruct (popByte_frame b) as (? & ? & ? & Hd).
  unfold same_shape. rewrite Hd. auto.
Qed.

Lemma set_head_shape b h : same_shape b (set_head b h).
Proof. unfold same_shape. auto. Qed.

Create HintDb ringbuf.

#[local] Hint Resolve same_shape_refl pushByte_shape popByte_shape
  set_head_shape pushByte_cursors popByte_cursors : ringbuf.

Lemma push_bytes_keeps n : forall b d e bi,
  cursors_ok b ->
  match push_bytes n b d e bi with
  | inl b' => same_shape b b' /\ cursors_ok b'
  | inr (b', _) => same_shape b b' /\ cursors_ok b'
  end.
Proof.
  induction n as [| n IH]; intros b d e bi Hc; simpl.
  - auto with ringbuf.
  - destruct (negb (isBufferFull b) || bits_overwrite b); [| auto with ringbuf].
    set (b1 := pushByte b _).
    specialize (IH b1 d e (bi + 1) (pushByte_cursors _ _ Hc)).
    destruct (push_bytes n b1 d e (bi + 1)) as [b' | [b' k]];
      destruct IH; split; eauto using same_shape_trans with ringbuf.
Qed.

Lemma push_undo_keeps k : forall b,
  cursors_ok b ->
  same_shape b (push_undo k b) /\ cursors_ok (push_undo k b) /\
  tail (push_undo k b) = tail b /\ data (push_undo k b) = data b.
Proof.
  induction k as [| k IH]; intros b Hc; simpl.
  - auto with ringbuf.
  - assert (Hc' : cursors_ok (set_head b (decrement b (head b)))).
    { destruct Hc as [Hh Ht]. split; [apply (decrement_range b _ Hh) | exact Ht]. }
    destruct (IH _ Hc') as (Hs & ? & Ht & Hd).
    simpl in Ht, Hd.
    split; [eapply same_shape_trans; [apply set_head_shape | exact Hs] |].
    split; [assumption |]. split; assumption.
Qed.

Lemma push_elements_keeps n : forall b d l e,
  cursors_ok b ->
  same_shape b (buf (push_elements n b d l e)) /\
  cursors_ok (buf (push_elements n b d l e)).
Proof.
  induction n as [| n IH]; intros b d l e Hc; simpl.
  - auto with ringbuf.
  - pose proof (push_bytes_keeps (Z.to_nat (width b)) b d e 0 Hc) as Hk.
    destruct (push_bytes _ b d e 0) as [b' | [b' k]]; destruct Hk as [Hs Hc'].
    + destruct (IH b' d l (uint (e + 1)) Hc').
      split; eauto using same_shape_trans.
    + simpl. destruct (push_undo_keeps (Z.to_nat k) b' Hc') as (? & ? & _).
      split; eauto using same_shape_trans.
Qed.

Lemma pop_bytes_keeps n : forall b d e bi,
  cursors_ok b ->
  match pop_bytes n b d e bi with
  | inl (b', _) => same_shape b b' /\ cursors_ok b'
  | inr (b', _, _) => same_shape b b' /\ cursors_ok b'
  end.
Proof.
  induction n as [| n IH]; intros b d e bi Hc; simpl.
  - auto with ringbuf.
  - destruct (negb (isBufferEmpty b)); [| auto with ringbuf].
    pose proof (popByte_shape b) as Hs. pose proof (popByte_cursors b Hc) as Hc'.
    destruct (popByte b) as [b1 x]; simpl in Hs, Hc'.
    set (d' := if bits_stack b then _ else _).
    specialize (IH b1 d' e (bi + 1) Hc').
    destruct (pop_bytes n b1 d' e (bi + 1)) as [[b' ?] | [[b' ?] ?]];
      destruct IH; split; eauto using same_shape_trans.
Qed.

Lemma pop_undo_keeps k : forall b d e,
  cursors_ok b ->
  same_shape b (pop_undo k b d e) /\ cursors_ok (pop_undo k b d e).
Proof.
  induction k as [| k IH]; intros b d e Hc.
  - simpl. auto with ringbuf.
  - cbn [pop_undo]. set (b1 := pushByte b _).
    destruct (IH b1 d e (pushByte_cursors _ _ Hc)).
    split; eauto using same_shape_trans with ringbuf.
Qed.

Lemma pop_elements_keeps n : forall b d l e,
  cursors_ok b ->
  same_shape b (buf (pop_elements n b d l e)) /\
  cursors_ok (buf (pop_elements n b d l e)).
Proof.
  induction n as [| n IH]; intros b d l e Hc; simpl.
  - auto with ringbuf.
  - pose proof (pop_bytes_keeps (Z.to_nat (width b)) b d e 0 Hc) as Hk.
    destruct (pop_bytes _ b d e 0) as [[b' d'] | [[b' d'] k]];
      destruct Hk as [Hs Hc'].
    + destruct (IH b' d' l (uint (e + 1)) Hc').
      split; eauto using same_shape_trans.
    + simpl. destruct (pop_undo_keeps (Z.to_nat k) b' d' e Hc').
      split; eauto using same_shape_trans.
Qed.

Lemma buffer_ok_shape b b' :
  buffer_ok b -> same_shape b b' -> cursors_ok b' -> buffer_ok b'.
Proof.
  intros (Hw & Hcap & Hr & Hlen & _) (Hd & Hw' & Hb & Hl) Hc.
  unfold buffer_ok, capacity in *. rewrite Hd, Hw', Hl. auto.
Qed.

Lemma pushToBuffer_ok b d l :
  buffer_ok b ->
  buffer_ok (buf (pushToBuffer b d l)) /\ same_shape b (buf (pushToBuffer b d l)).
Proof.
  intros Hb. assert (Hc : cursors_ok b) by apply Hb.
  destruct (push_elements_keeps (Z.to_nat l) b d l 0 Hc).
  split; eauto using buffer_ok_shape.
Qed.

Lemma popFromBuffer_ok b d l :
  buffer_ok b ->
  buffer_ok (buf (popFromBuffer b d l)) /\ same_shape b (buf (popFromBuffer b d l)).
Proof.
  intros Hb. assert (Hc : cursors_ok b) by apply Hb.
  destruct (pop_elements_keeps (Z.to_nat l) b d l 0 Hc).
  split; eauto using buffer_ok_shape.
Qed.

Lemma buffer_ok_last_offset b :
  buffer_ok b -> last_offset b = capacity b * width b.
Proof.
  intros (Hw & Hcap & Hr & _). unfold last_offset, capacity in *.
  destruct (representable_bounds (depth b - 1) (width b)); [lia | lia | assumption |].
  rewrite (uint_small (depth b - 1)) by lia. apply uint_small. lia.
Qed.

Lemma fresh_ok n w cfg :
  0 < n -> 0 < w <= UCHAR_MAX -> representable n w -> buffer_ok (fresh n w cfg).
Proof.
  intros Hn Hw Hr. unfold buffer_ok, capacity.
  rewrite fresh_depth by (assumption || lia).
  replace (n + 1 - 1) with n by lia.
  repeat split; simpl; try lia; try assumption.
  - rewrite repeat_length.
    destruct (representable_bounds n w); [lia | lia | assumption |].
    rewrite (uint_small (n + 1)) by lia. lia.
  - apply uint_range.
  - apply uint_range.
Qed.

Lemma reachable_ok n w cfg b :
  0 < n -> 0 < w <= UCHAR_MAX -> representable n w ->
  reachable n w cfg b ->
  buffer_ok b /\ same_shape (fresh n w cfg) b.
Proof.
  intros Hn Hw Hr. induction 1 as [b live Hnew | b d l _ [Hb Hs] _ | b d l _ [Hb Hs] _].
  - rewrite newBuffer_success in Hnew. injection Hnew as <- _.
    split; [apply fresh_ok; assumption | apply same_shape_refl].
  - destruct (pushToBuffer_ok b d l Hb). eauto using same_shape_trans.
  - destruct (popFromBuffer_ok b d l Hb). eauto using same_shape_trans.
Qed.

(** ** Bounds invariant *)

Lemma uint_le z : 0 <= z -> uint z <= z.
Proof. intros Hz. unfold uint. apply Z.mod_le; [assumption | reflexivity]. Qed.

Lemma reachable_cursors n w cfg b :
  reachable n w cfg b -> cursors_ok b /\ same_shape (fresh n w cfg) b.
Proof.
  induction 1 as [b live Hnew | b d l _ [Hc Hs] _ | b d l _ [Hc Hs] _].
  - rewrite newBuffer_success in Hnew. injection Hnew as <- _.
    split; [| apply same_shape_refl].
    pose proof (last_offset_range (fresh n w cfg)).
    unfold cursors_ok. simpl. lia.
  - destruct (push_elements_keeps (Z.to_nat l) b d l 0 Hc).
    split; [assumption | eapply same_shape_trans; eassumption].
  - destruct (pop_elements_keeps (Z.to_nat l) b d l 0 Hc).
    split; [assumption | eapply same_shape_trans; eassumption].
Qed.

(** X18.  Starting from a freshly constructed buffer of capacity below
    [UINT_MAX], after every sequence of [pushToBuffer] and [popFromBuffer]
    calls both cursors are at byte
    offsets between 0 and [capacity * elementWidth] inclusive, which lie
    inside the [(capacity + 1) * elementWidth] bytes of storage. *)
Theorem cursors_in_bounds (n w cfg : Z) (b : buffer_t) :
  0 < n < UINT_MAX -> 0 < w <= UCHAR_MAX ->
  reachable n w cfg b ->
  0 <= head b <= n * w /\ 0 <= tail b <= n * w /\
  Z.of_nat (length (data b)) = (n + 1) * w /\
  n * w < Z.of_nat (length (data b)).
Proof.
  intros Hn Hw Hreach.
  destruct (reachable_cursors n w cfg b Hreach) as [[Hh Ht] Hs].
  pose proof (same_shape_last_offset _ _ Hs) as HL.
  destruct Hs as (_ & _ & _ & Hlen).
  assert (Hlast : last_offset (fresh n w cfg) <= n * w).
  { unfold last_offset. simpl. rewrite (uint_small (n + 1)) by lia.
    replace (n + 1 - 1) with n by lia. rewrite (uint_small n) by lia.
    apply uint_le. nia. }
  assert (Hsize : Z.of_nat (length (data b)) = (n + 1) * w).
  { rewrite Hlen. simpl. rewrite repeat_length, (uint_small (n + 1)) by lia.
    nia. }
  repeat split; try lia.
Qed.

Lemma reachable_run n w cfg b cs :
  reachable n w cfg b ->
  Forall (fun c => match c with Push _ l | Pop _ l => 0 <= l <= UINT_MAX end) cs ->
  reachable n w cfg (run b cs).
Proof.
  intros Hb Hcs. revert b Hb. induction Hcs as [| c cs Hc _ IH]; intros b Hb.
  - exact Hb.
  - simpl. apply IH. destruct c; simpl; [apply reach_push | apply reach_pop]; auto.
Qed.

Lemma queue34_refilled_reachable :
  reachable 3 4 (Z.land B_QUEUE B_DROP) queue34_refilled.
Proof.
  apply reachable_run.
  - apply (reach_new _ _ _ _ 2%nat). reflexivity.
  - repeat constructor; discriminate.
Defined.

Lemma cursors_in_bounds_witness :
  0 <= head queue34_refilled <= 3 * 4 /\
  0 <= tail queue34_refilled <= 3 * 4 /\
  Z.of_nat (length (data queue34_refilled)) = (3 + 1) * 4 /\
  3 * 4 < Z.of_nat (length (data queue34_refilled)).
Proof.
  apply (cursors_in_bounds 3 4 (Z.land B_QUEUE B_DROP) queue34_refilled).
  - split; reflexivity.
  - split; [reflexivity | discriminate].
  - exact queue34_refilled_reachable.
Defined.

(** ** Positions on the ring *)

Lemma ring_pos_0 b p : 0 <= p <= last_offset b -> ring_pos b p 0 = p.
Proof. unfold ring_pos. intros H. zcases; lia. Qed.

Lemma ring_pos_range b p i :
  0 <= p <= last_offset b -> 0 <= i <= last_offset b + 1 ->
  0 <= ring_pos b p i <= last_offset b.
Proof. unfold ring_pos. intros Hp Hi. zcases; lia. Qed.

Lemma ring_pos_add b p i j :
  0 <= p <= last_offset b -> 0 <= i -> 0 <= j -> i + j <= last_offset b + 1 ->
  ring_pos b (ring_pos b p i) j = ring_pos b p (i + j).
Proof. unfold ring_pos. intros Hp Hi Hj Hij. zcases; lia. Qed.

Lemma ring_pos_shape b b' p i :
  same_shape b b' -> ring_pos b' p i = ring_pos b p i.
Proof. intros Hs. unfold ring_pos. rewrite (same_shape_last_offset _ _ Hs). reflexivity. Qed.

Lemma decrement_ring_pos b p k :
  0 <= p <= last_offset b -> 0 <= k <= last_offset b ->
  decrement b (ring_pos b p (k + 1)) = ring_pos b p k.
Proof. unfold decrement, ring_pos. intros Hp Hk. zcases; lia. Qed.

Lemma decrement_shape b b' c :
  same_shape b b' -> decrement b' c = decrement b c.
Proof. intros Hs. unfold decrement. rewrite (same_shape_last_offset _ _ Hs). reflexivity. Qed.

Lemma iter_decrement_ring_pos b p (k : nat) :
  0 <= p <= last_offset b -> Z.of_nat k <= last_offset b + 1 ->
  Nat.iter k (decrement b) (ring_pos b p (Z.of_nat k)) = p.
Proof.
  intros Hp. induction k as [| k IH]; intros Hk.
  - simpl. apply ring_pos_0. assumption.
  - rewrite Nat.iter_succ_r.
    replace (Z.of_nat (S k)) with (Z.of_nat k + 1) by lia.
    rewrite decrement_ring_pos by lia. apply IH. lia.
Qed.

Lemma push_undo_head k : forall b b0,
  same_shape b0 b ->
  head (push_undo k b) = Nat.iter k (decrement b0) (head b).
Proof.
  induction k as [| k IH]; intros b b0 Hs.
  - reflexivity.
  - cbn [push_undo]. rewrite (IH _ b0), Nat.iter_succ_r.
    + simpl. rewrite (decrement_shape _ _ _ Hs). reflexivity.
    + eapply same_shape_trans; [exact Hs | apply set_head_shape].
Qed.

(** ** Occupancy through the byte loops *)

Lemma push_bytes_drop n : forall b d e bi,
  cursors_ok b -> bits_overwrite b = false ->
  match push_bytes n b d e bi with
  | inl b' =>
      occupancy b + Z.of_nat n <= last_offset b /\
      occupancy b' = occupancy b + Z.of_nat n /\
      tail b' = tail b /\
      head b' = ring_pos b (head b) (Z.of_nat n)
  | inr (b', k) =>
      last_offset b < occupancy b + Z.of_nat n /\
      k = bi + (last_offset b - occupancy b) /\
      occupancy b' = last_offset b /\
      tail b' = tail b /\
      head b' = ring_pos b (head b) (last_offset b - occupancy b)
  end.
Proof.
  induction n as [| n IH]; intros b d e bi Hc Hov.
  - simpl. pose proof (occupancy_range b Hc). destruct Hc as [Hh Ht].
    rewrite ring_pos_0 by assumption. repeat split; lia.
  - cbn [push_bytes]. rewrite Hov, orb_false_r.
    pose proof (occupancy_range b Hc) as Ho.
    pose proof (isBufferFull_occupancy b Hc) as Hf.
    destruct (isBufferFull b) eqn:Efull; simpl.
    + symmetry in Hf. apply Z.eqb_eq in Hf. destruct Hc as [Hh Ht].
      replace (last_offset b - occupancy b) with 0 by lia.
      rewrite ring_pos_0 by assumption. repeat split; lia.
    + symmetry in Hf. apply Z.eqb_neq in Hf.
      set (b1 := pushByte b _).
      assert (Hs : same_shape b b1) by apply pushByte_shape.
      assert (Ho1 : occupancy b1 = occupancy b + 1).
      { unfold b1. rewrite pushByte_occupancy, Efull by assumption. reflexivity. }
      assert (Ht1 : tail b1 = tail b).
      { unfold b1. rewrite pushByte_tail, Efull. reflexivity. }
      assert (Hh1 : head b1 = ring_pos b (head b) 1).
      { unfold b1. rewrite pushByte_head. apply increment_ring_pos, Hc. }
      assert (Hov1 : bits_overwrite b1 = false).
      { rewrite (proj1 (same_shape_bits _ _ Hs)). assumption. }
      specialize (IH b1 d e (bi + 1) (pushByte_cursors _ _ Hc) Hov1).
      rewrite (same_shape_last_offset _ _ Hs), Ho1, Ht1, Hh1 in IH.
      rewrite !(ring_pos_shape _ _ _ _ Hs) in IH.
      destruct Hc as [Hh Ht].
      destruct (push_bytes n b1 d e (bi + 1)) as [b' | [b' k]].
      * destruct IH as (H1 & H2 & H3 & H4).
        rewrite ring_pos_add in H4 by lia.
        replace (1 + Z.of_nat n) with (Z.of_nat (S n)) in H4 by lia.
        repeat split; try assumption; lia.
      * destruct IH as (H1 & H2 & H3 & H4 & H5).
        rewrite ring_pos_add in H5 by lia.
        replace (1 + (last_offset b - (occupancy b + 1)))
          with (last_offset b - occupancy b) in H5 by lia.
        repeat split; try assumption; lia.
Qed.

Lemma push_bytes_overwrite n : forall b d e bi,
  cursors_ok b -> bits_overwrite b = true ->
  match push_bytes n b d e bi with
  | inl b' => occupancy b' = Z.min (occupancy b + Z.of_nat n) (last_offset b)
  | inr _ => False
  end.
Proof.
  induction n as [| n IH]; intros b d e bi Hc Hov.
  - simpl. pose proof (occupancy_range b Hc). lia.
  - cbn [push_bytes]. rewrite Hov, orb_true_r.
    set (b1 := pushByte b _).
    assert (Hs : same_shape b b1) by apply pushByte_shape.
    assert (Hov1 : bits_overwrite b1 = true).
    { rewrite (proj1 (same_shape_bits _ _ Hs)). assumption. }
    specialize (IH b1 d e (bi + 1) (pushByte_cursors _ _ Hc) Hov1).
    destruct (push_bytes n b1 d e (bi + 1)) as [b' | ?]; [| assumption].
    rewrite IH, (same_shape_last_offset _ _ Hs).
    unfold b1. rewrite pushByte_occupancy, Hov by assumption.
    pose proof (occupancy_range b Hc) as Ho.
    rewrite (isBufferFull_occupancy b Hc).
    zcases; lia.
Qed.

Lemma pop_bytes_occupancy n : forall b d e bi,
  cursors_ok b ->
  match pop_bytes n b d e bi with
  | inl (b', _) =>
      Z.of_nat n <= occupancy b /\ occupancy b' = occupancy b - Z.of_nat n
  | inr (b', _, k) =>
      occupancy b < Z.of_nat n /\ k = bi + occupancy b /\ occupancy b' = 0
  end.
Proof.
  induction n as [| n IH]; intros b d e bi Hc.
  - simpl. pose proof (occupancy_range b Hc). lia.
  - cbn [pop_bytes].
    pose proof (occupancy_range b Hc) as Ho.
    pose proof (isBufferEmpty_occupancy b Hc) as He.
    destruct (isBufferEmpty b) eqn:Eempty; simpl.
    + symmetry in He. apply Z.eqb_eq in He. lia.
    + symmetry in He. apply Z.eqb_neq in He.
      pose proof (popByte_occupancy b Hc Eempty) as Ho1.
      pose proof (popByte_cursors b Hc) as Hc1.
      destruct (popByte b) as [b1 x]; simpl in Ho1, Hc1.
      set (d' := if bits_stack b then _ else _).
      specialize (IH b1 d' e (bi + 1) Hc1). rewrite Ho1 in IH.
      destruct (pop_bytes n b1 d' e (bi + 1)) as [[b' ?] | [[b' ?] k]]; lia.
Qed.

(** ** Occupancy through the element loops *)

Lemma div_mod_step free w :
  0 < w -> w <= free ->
  (free - w) / w = free / w - 1 /\ (free - w) mod w = free mod w.
Proof.
  intros Hw Hf. replace (free - w) with (free + (-1) * w) by lia.
  rewrite Z.div_add, Z.mod_add by lia. split; lia.
Qed.

Lemma push_elements_drop n : forall b d l e,
  cursors_ok b -> bits_overwrite b = false -> 0 < width b ->
  0 <= e -> e + Z.of_nat n = l -> l <= UINT_MAX ->
  let free := last_offset b - occupancy b in
  let fits := free / width b in
  let o := push_elements n b d l e in
  tail (buf o) = tail b /\
  (Z.of_nat n <= fits ->
     failed o = 0 /\ undone o = 0 /\
     occupancy (buf o) = occupancy b + Z.of_nat n * width b /\
     head (buf o) = ring_pos b (head b) (Z.of_nat n * width b)) /\
  (fits < Z.of_nat n ->
     failed o = Z.of_nat n - fits /\ undone o = free mod width b /\
     occupancy (buf o) = occupancy b + fits * width b /\
     head (buf o) = ring_pos b (head b) (fits * width b)).
Proof.
  induction n as [| n IH]; intros b d l e Hc Hov Hw He Hl Hmax free fits o.
  - pose proof (occupancy_range b Hc) as Ho.
    assert (0 <= fits) by (apply Z.div_pos; lia).
    subst o. simpl. destruct Hc as [Hh Ht].
    rewrite ring_pos_0 by assumption. repeat split; lia.
  - subst o. cbn [push_elements].
    pose proof (occupancy_range b Hc) as Ho.
    pose proof (push_bytes_drop (Z.to_nat (width b)) b d e 0 Hc Hov) as Hb.
    pose proof (push_bytes_keeps (Z.to_nat (width b)) b d e 0 Hc) as Hk.
    rewrite Z2Nat.id in Hb by lia.
    destruct (push_bytes (Z.to_nat (width b)) b d e 0) as [b' | [b' k]].
    + destruct Hb as (Hfit & Ho' & Ht' & Hh'). destruct Hk as [Hs Hc'].
      assert (Hov' : bits_overwrite b' = false).
      { rewrite (proj1 (same_shape_bits _ _ Hs)). assumption. }
      assert (Hw' : width b' = width b) by apply Hs.
      rewrite (uint_small (e + 1)) by lia.
      specialize (IH b' d l (e + 1) Hc' Hov' ltac:(lia) ltac:(lia) ltac:(lia) Hmax).
      cbv zeta in IH.
      rewrite (same_shape_last_offset _ _ Hs), Ho', Ht', Hh', Hw' in IH.
      rewrite !(ring_pos_shape _ _ _ _ Hs) in IH.
      replace (last_offset b - (occupancy b + width b))
        with (free - width b) in IH by (unfold free; lia).
      destruct (div_mod_step free (width b)) as [Hq Hr];
        [lia | unfold free; lia |].
      rewrite Hq, Hr in IH. fold fits in IH.
      destruct IH as (IHt & IHfit & IHfail).
      assert (Hfw : fits * width b <= free).
      { unfold fits. pose proof (Z.mul_div_le free (width b) Hw). lia. }
      assert (Hf1 : 1 <= fits).
      { pose proof (Z.div_pos (free - width b) (width b)).
        unfold free in *. lia. }
      destruct Hc as [Hh Ht].
      split; [assumption |]. split; intros Hn.
      * destruct IHfit as (? & ? & ? & Hhd); [lia |].
        rewrite ring_pos_add in Hhd by (unfold free in *; nia).
        replace (width b + Z.of_nat n * width b)
          with (Z.of_nat (S n) * width b) in Hhd by lia.
        repeat split; try assumption; lia.
      * destruct IHfail as (? & ? & ? & Hhd); [lia |].
        rewrite ring_pos_add in Hhd by (unfold free in *; nia).
        replace (width b + (fits - 1) * width b)
          with (fits * width b) in Hhd by lia.
        repeat split; try assumption; lia.
    + destruct Hb as (Hfit & Hk' & Ho' & Ht' & Hh'). destruct Hk as [Hs Hc'].
      assert (Hfree : 0 <= free < width b) by (unfold free; lia).
      assert (Hfits : fits = 0) by (apply Z.div_small; assumption).
      assert (Hmod : free mod width b = free) by (apply Z.mod_small; assumption).
      fold free in Hk', Hh'. rewrite Z.add_0_l in Hk'. subst k.
      cbn [buf failed undone].
      destruct (push_undo_keeps (Z.to_nat free) b' Hc') as (Hs2 & Hc2 & Ht2 & Hd2).
      assert (Hhead : head (push_undo (Z.to_nat free) b') = head b).
      { rewrite (push_undo_head _ _ b Hs), Hh'.
        replace free with (Z.of_nat (Z.to_nat free)) at 2 by lia.
        apply iter_decrement_ring_pos; [apply Hc | lia]. }
      assert (Hocc : occupancy (push_undo (Z.to_nat free) b') = occupancy b).
      { unfold occupancy.
        rewrite (same_shape_last_offset _ _ Hs2), (same_shape_last_offset _ _ Hs).
        rewrite Hhead, Ht2, Ht'. reflexivity. }
      destruct Hc as [Hh Ht].
      rewrite Hfits, Hmod, Z.mul_0_l, ring_pos_0, Z.add_0_r by assumption.
      rewrite uint_small by lia.
      split; [congruence |]. split; intros Hn; [lia |].
      repeat split; try assumption; lia.
Qed.

(** ** Partial push under the dropping policy *)

(** C5.  For every buffer under the dropping policy, with [free] bytes
    unoccupied and room for [fits = free / width] whole elements: a call
    asking for at most [fits] elements delivers them all and returns 0; a
    call asking for more returns the number of elements not transferred,
    [l - fits], counting the partial one, after retreating [head] once for
    each of the [free mod width] bytes of the partial element, from the
    position where the buffer became full back to the end of the last
    whole element; [tail] does not move. *)
Theorem push_drop_partial (b : buffer_t) (d : list byte) (l : Z) :
  cursors_ok b -> 0 < width b -> bits_overwrite b = false ->
  0 <= l <= UINT_MAX ->
  let free := last_offset b - occupancy b in
  let fits := free / width b in
  let o := pushToBuffer b d l in
  (l <= fits ->
     failed o = 0 /\ undone o = 0 /\
     occupancy (buf o) = occupancy b + l * width b) /\
  (fits < l ->
     failed o = l - fits /\ undone o = free mod width b /\
     head (buf o) =
       Nat.iter (Z.to_nat (undone o)) (decrement b) (ring_pos b (head b) free) /\
     head (buf o) = ring_pos b (head b) (fits * width b) /\
     tail (buf o) = tail b /\
     occupancy (buf o) = occupancy b + fits * width b).
Proof.
  intros Hc Hw Hov Hl free fits o.
  pose proof (push_elements_drop (Z.to_nat l) b d l 0 Hc Hov Hw
                ltac:(lia) ltac:(lia) ltac:(lia)) as H.
  cbv zeta in H. rewrite Z2Nat.id in H by lia.
  fold (pushToBuffer b d l) in H. fold free fits o in H.
  destruct H as (Ht & Hfit & Hfail).
  split; intros Hn.
  - destruct (Hfit Hn) as (? & ? & ? & ?). auto.
  - destruct (Hfail Hn) as (Hf & Hu & Ho & Hh).
    repeat split; try assumption.
    rewrite Hu, Hh.
    pose proof (occupancy_range b Hc) as Hocc.
    pose proof (Z.mod_pos_bound free (width b) Hw) as Hm.
    pose proof (Z.div_mod free (width b) ltac:(lia)) as Hdm.
    fold fits in Hdm.
    assert (0 <= fits) by (apply Z.div_pos; unfold free; lia).
    assert (0 <= fits * width b) by nia.
    assert (Hp : ring_pos b (head b) free =
                 ring_pos b (ring_pos b (head b) (fits * width b))
                   (Z.of_nat (Z.to_nat (free mod width b)))).
    { rewrite Z2Nat.id, ring_pos_add by (unfold free in *; try apply Hc; lia).
      f_equal. lia. }
    rewrite Hp. symmetry. apply iter_decrement_ring_pos.
    + apply ring_pos_range; [apply Hc | unfold free in *; lia].
    + unfold free in *. lia.
Qed.

Lemma push_drop_partial_witness :
  let o := pushToBuffer queue_partial twelve 3 in
  failed o = 3 - 2 /\ undone o = 2 /\ head (buf o) = 10 /\ tail (buf o) = 0.
Proof.
  assert (Hc : cursors_ok queue_partial) by by_evaluation.
  assert (Hw : 0 < width queue_partial) by reflexivity.
  assert (Hov : bits_overwrite queue_partial = false) by reflexivity.
  assert (Hl : 0 <= 3 <= UINT_MAX) by by_evaluation.
  destruct (push_drop_partial queue_partial twelve 3 Hc Hw Hov Hl) as [_ H].
  destruct (H eq_refl) as (Hf & Hu & _ & Hh & Ht & _).
  intros o. split; [exact Hf | split; [exact Hu | split; [exact Hh | exact Ht]]].
Defined.

(** ** Occupancy is a whole number of elements *)

Lemma push_elements_overwrite n : forall b d l e,
  cursors_ok b -> bits_overwrite b = true -> 0 < width b ->
  (width b | last_offset b) -> (width b | occupancy b) ->
  let o := push_elements n b d l e in
  failed o = 0 /\ undone o = 0 /\ (width b | occupancy (buf o)).
Proof.
  induction n as [| n IH]; intros b d l e Hc Hov Hw HL Ho o; subst o.
  - simpl. auto.
  - cbn [push_elements].
    pose proof (push_bytes_overwrite (Z.to_nat (width b)) b d e 0 Hc Hov) as Hb.
    pose proof (push_bytes_keeps (Z.to_nat (width b)) b d e 0 Hc) as Hk.
    rewrite Z2Nat.id in Hb by lia.
    destruct (push_bytes (Z.to_nat (width b)) b d e 0) as [b' | ?]; [| contradiction].
    destruct Hk as [Hs Hc'].
    assert (Hw' : width b' = width b) by apply Hs.
    rewrite <- Hw'. apply IH; rewrite ?Hw'; try assumption.
    + rewrite (proj1 (same_shape_bits _ _ Hs)). assumption.
    + rewrite (same_shape_last_offset _ _ Hs). assumption.
    + rewrite Hb.
      destruct (Z.min_spec (occupancy b + width b) (last_offset b))
        as [[_ ->] | [_ ->]]; [| assumption].
      apply Z.divide_add_r; [assumption | apply Z.divide_refl].
Qed.

Lemma pop_elements_aligned n : forall b d l e,
  cursors_ok b -> 0 < width b -> (width b | occupancy b) ->
  let o := pop_elements n b d l e in
  undone o = 0 /\ (width b | occupancy (buf o)).
Proof.
  induction n as [| n IH]; intros b d l e Hc Hw Ho o; subst o.
  - simpl. auto.
  - cbn [pop_elements].
    pose proof (pop_bytes_occupancy (Z.to_nat (width b)) b d e 0 Hc) as Hb.
    pose proof (pop_bytes_keeps (Z.to_nat (width b)) b d e 0 Hc) as Hk.
    rewrite Z2Nat.id in Hb by lia.
    destruct (pop_bytes (Z.to_nat (width b)) b d e 0)
      as [[b' d'] | [[b' d'] k]]; destruct Hk as [Hs Hc'].
    + destruct Hb as [_ Hb].
      assert (Hw' : width b' = width b) by apply Hs.
      rewrite <- Hw'. apply IH; rewrite ?Hw'; try assumption.
      rewrite Hb. apply Z.divide_sub_r; [assumption | apply Z.divide_refl].
    + destruct Hb as (Hlt & Hk & Hb).
      pose proof (occupancy_range b Hc) as Hr.
      assert (Hz : occupancy b = 0).
      { apply Z.mod_divide in Ho; [| lia].
        rewrite Z.mod_small in Ho; lia. }
      rewrite Hz in Hk. simpl in Hk. subst k. simpl.
      rewrite Hb. split; [reflexivity | apply Z.divide_0_r].
Qed.

Lemma pushToBuffer_aligned b d l :
  buffer_ok b -> 0 <= l <= UINT_MAX -> (width b | occupancy b) ->
  undone (pushToBuffer b d l) = 0 /\
  (width b | occupancy (buf (pushToBuffer b d l))).
Proof.
  intros Hb Hl Ho. pose proof (buffer_ok_last_offset b Hb) as HL.
  destruct Hb as (Hw & _ & _ & _ & Hc).
  assert (HLd : (width b | last_offset b)).
  { rewrite HL. apply Z.divide_factor_r. }
  destruct (bits_overwrite b) eqn:Hov.
  - destruct (push_elements_overwrite (Z.to_nat l) b d l 0 Hc Hov
                ltac:(lia) HLd Ho) as (_ & ? & ?).
    split; assumption.
  - pose proof (push_elements_drop (Z.to_nat l) b d l 0 Hc Hov
                  ltac:(lia) ltac:(lia) ltac:(lia) ltac:(lia)) as H.
    cbv zeta in H. fold (pushToBuffer b d l) in H.
    destruct H as (_ & Hfit & Hfail).
    assert (Hm : (last_offset b - occupancy b) mod width b = 0).
    { apply Z.mod_divide; [lia |]. apply Z.divide_sub_r; assumption. }
    destruct (Z.le_gt_cases (Z.of_nat (Z.to_nat l))
                ((last_offset b - occupancy b) / width b)) as [Hn | Hn].
    + destruct (Hfit Hn) as (_ & Hu & Hocc & _). rewrite Hocc.
      split; [assumption |].
      apply Z.divide_add_r; [assumption | apply Z.divide_factor_r].
    + destruct (Hfail Hn) as (_ & Hu & Hocc & _). rewrite Hocc, Hu.
      split; [assumption |].
      apply Z.divide_add_r; [assumption | apply Z.divide_factor_r].
Qed.

Lemma popFromBuffer_aligned b d l :
  buffer_ok b -> (width b | occupancy b) ->
  undone (popFromBuffer b d l) = 0 /\
  (width b | occupancy (buf (popFromBuffer b d l))).
Proof.
  intros Hb Ho. destruct Hb as (Hw & _ & _ & _ & Hc).
  apply pop_elements_aligned; (assumption || lia).
Qed.

Lemma reachable_aligned n w cfg b :
  0 < n -> 0 < w <= UCHAR_MAX -> representable n w ->
  reachable n w cfg b ->
  buffer_ok b /\ width b = w /\ (w | occupancy b).
Proof.
  intros Hn Hw Hr Hreach.
  assert (Hgen : forall b', reachable n w cfg b' -> buffer_ok b' /\ width b' = w).
  { intros b' H'. destruct (reachable_ok n w cfg b' Hn Hw Hr H') as [Hb Hs].
    split; [assumption | apply Hs]. }
  induction Hreach as [b live Hnew | b d l Hreach IH Hl | b d l Hreach IH Hl].
  - rewrite newBuffer_success in Hnew. injection Hnew as <- _.
    destruct (Hgen (fresh n w cfg)) as [Hb Hwd].
    { apply (reach_new _ _ _ _ 2%nat), newBuffer_success. }
    split; [assumption | split; [assumption |]].
    unfold occupancy. simpl. apply Z.divide_0_r.
  - destruct IH as (Hb & Hwd & Ho). subst w.
    destruct (pushToBuffer_aligned b d l Hb Hl Ho) as [_ Ha].
    destruct (Hgen _ (reach_push _ _ _ b d l Hreach Hl)) as [Hb' Hw'].
    rewrite Hw'. auto.
  - destruct IH as (Hb & Hwd & Ho). subst w.
    destruct (popFromBuffer_aligned b d l Hb Ho) as [_ Ha].
    destruct (Hgen _ (reach_pop _ _ _ b d l Hreach Hl)) as [Hb' Hw'].
    rewrite Hw'. auto.
Qed.

(** X19.  Starting from a freshly constructed buffer of representable
    storage size, after every sequence of complete [pushToBuffer] and
    [popFromBuffer] calls, under either
    overflow policy and either mode, the number of occupied bytes is a
    multiple of the element width; and whatever call comes next, its
    partial-element loop runs zero times: a push fails and a pop meets the
    empty buffer only at [byteIndex = 0]. *)
Theorem occupancy_whole_elements (n w cfg : Z) (b : buffer_t) :
  0 < n -> 0 < w <= UCHAR_MAX -> representable n w ->
  reachable n w cfg b ->
  occupancy b mod w = 0 /\
  forall d l, 0 <= l <= UINT_MAX ->
    undone (pushToBuffer b d l) = 0 /\ undone (popFromBuffer b d l) = 0.
Proof.
  intros Hn Hw Hr Hreach.
  destruct (reachable_aligned n w cfg b Hn Hw Hr Hreach) as (Hb & Hwd & Ho).
  split.
  - apply Z.mod_divide; [lia | assumption].
  - intros d l Hl. subst w. split.
    + apply pushToBuffer_aligned; assumption.
    + apply popFromBuffer_aligned; assumption.
Qed.

Lemma occupancy_whole_elements_witness :
  occupancy queue34_refilled mod 4 = 0 /\
  forall d l, 0 <= l <= UINT_MAX ->
    undone (pushToBuffer queue34_refilled d l) = 0 /\
    undone (popFromBuffer queue34_refilled d l) = 0.
Proof.
  apply (occupancy_whole_elements 3 4 (Z.land B_QUEUE B_DROP) queue34_refilled).
  - reflexivity.
  - split; [reflexivity | discriminate].
  - discriminate.
  - exact queue34_refilled_reachable.
Defined.

(** ** Logical contents through the byte primitives *)

Lemma contents_length b :
  length (contents b) = Z.to_nat (occupancy b).
Proof. unfold contents. rewrite length_map, length_seq. reflexivity. Qed.

Lemma head_ring_pos b :
  cursors_ok b -> head b = ring_pos b (tail b) (occupancy b).
Proof. unfold cursors_ok, ring_pos, occupancy. intros H. zcases; lia. Qed.

Lemma ring_pos_inj b t i j :
  0 <= t <= last_offset b -> 0 <= i < j -> j <= last_offset b ->
  ring_pos b t i <> ring_pos b t j.
Proof. unfold ring_pos. intros Ht Hi Hj. zcases; lia. Qed.

Lemma pushByte_contents b x :
  cursors_ok b -> isBufferFull b = false ->
  last_offset b < Z.of_nat (length (data b)) ->
  contents (pushByte b x) = contents b ++ [x].
Proof.
  intros Hc Hfull Hlen.
  pose proof (occupancy_range b Hc) as Ho.
  pose proof (isBufferFull_occupancy b Hc) as Hf. rewrite Hfull in Hf.
  symmetry in Hf. apply Z.eqb_neq in Hf.
  pose proof (head_ring_pos b Hc) as Hh.
  unfold contents at 1.
  rewrite pushByte_occupancy, Hfull, pushByte_tail, Hfull, pushByte_data
    by assumption. simpl.
  replace (Z.to_nat (occupancy b + 1)) with (S (Z.to_nat (occupancy b))) by lia.
  rewrite seq_S, map_app. simpl. f_equal.
  - unfold contents. apply map_ext_in. intros i Hi. apply in_seq in Hi.
    rewrite (ring_pos_shape _ _ _ _ (pushByte_shape b x)).
    apply load_store_other. rewrite Hh at 1.
    apply not_eq_sym, ring_pos_inj; [apply Hc | lia | lia].
  - f_equal. rewrite (ring_pos_shape _ _ _ _ (pushByte_shape b x)).
    rewrite Z2Nat.id, <- Hh by lia.
    apply load_store_same. destruct Hc as [[? ?] _]. lia.
Qed.

Lemma popByte_queue_contents b :
  cursors_ok b -> bits_stack b = false -> isBufferEmpty b = false ->
  contents b = snd (popByte b) :: contents (fst (popByte b)).
Proof.
  intros Hc Hst Hne.
  pose proof (occupancy_range b Hc) as Ho.
  pose proof (isBufferEmpty_occupancy b Hc) as He. rewrite Hne in He.
  symmetry in He. apply Z.eqb_neq in He.
  pose proof (popByte_occupancy b Hc Hne) as Ho1.
  unfold contents at 2. rewrite Ho1.
  unfold contents.
  replace (Z.to_nat (occupancy b)) with (S (Z.to_nat (occupancy b - 1))) by lia.
  rewrite <- cons_seq, <- seq_shift, map_cons, map_map.
  unfold popByte. rewrite Hst. simpl.
  destruct Hc as [Hh Ht]. f_equal.
  - rewrite ring_pos_0 by assumption. reflexivity.
  - apply map_ext_in. intros i Hi. apply in_seq in Hi. f_equal.
    change (ring_pos (set_tail b (increment b (tail b))))
      with (ring_pos b) at 1.
    rewrite increment_ring_pos, ring_pos_add by lia.
    f_equal. lia.
Qed.

Lemma popByte_stack_contents b :
  cursors_ok b -> bits_stack b = true -> isBufferEmpty b = false ->
  contents b = contents (fst (popByte b)) ++ [snd (popByte b)].
Proof.
  intros Hc Hst Hne.
  pose proof (occupancy_range b Hc) as Ho.
  pose proof (isBufferEmpty_occupancy b Hc) as He. rewrite Hne in He.
  symmetry in He. apply Z.eqb_neq in He.
  pose proof (popByte_occupancy b Hc Hne) as Ho1.
  pose proof (head_ring_pos _ (popByte_cursors b Hc)) as Hh1.
  unfold contents at 2. rewrite Ho1.
  unfold contents at 1.
  replace (Z.to_nat (occupancy b)) with (S (Z.to_nat (occupancy b - 1))) by lia.
  rewrite seq_S, map_app. simpl.
  revert Ho1 Hh1. unfold popByte. rewrite Hst. simpl. intros Ho1 Hh1.
  f_equal. f_equal. f_equal.
  rewrite Z2Nat.id, <- Ho1 by lia. symmetry. exact Hh1.
Qed.

(** ** Reading and writing the caller's block *)

Lemma bytes_at_add d n1 : forall off n2,
  bytes_at d off (n1 + n2) =
  bytes_at d off n1 ++ bytes_at d (off + Z.of_nat n1) n2.
Proof.
  induction n1 as [| n1 IH]; intros off n2.
  - simpl. rewrite Z.add_0_r. reflexivity.
  - cbn [Nat.add bytes_at app]. rewrite IH. do 3 f_equal. lia.
Qed.

Lemma load_middle (pre : list byte) x post :
  load (pre ++ x :: post) (Z.of_nat (length pre)) = x.
Proof.
  unfold load. destruct (Z.leb_spec 0 (Z.of_nat (length pre))); [| lia].
  rewrite Nat2Z.id, list_lookup_middle by reflexivity. reflexivity.
Qed.

Lemma bytes_at_middle mid : forall pre post,
  bytes_at (pre ++ mid ++ post) (Z.of_nat (length pre)) (length mid) = mid.
Proof.
  induction mid as [| x mid IH]; intros pre post.
  - reflexivity.
  - cbn [length bytes_at app]. rewrite load_middle. f_equal.
    specialize (IH (pre ++ [x]) post).
    rewrite <- app_assoc, length_app in IH. simpl in IH.
    rewrite <- IH at 3. f_equal. lia.
Qed.

Lemma bytes_at_all d : bytes_at d 0 (length d) = d.
Proof.
  pose proof (bytes_at_middle d [] []) as H.
  simpl in H. rewrite app_nil_r in H. exact H.
Qed.

Lemma store_store_comm d p q x y :
  p <> q -> store (store d p x) q y = store (store d q y) p x.
Proof.
  intros Hpq. unfold store.
  destruct (Z.leb_spec 0 p), (Z.leb_spec 0 q); try reflexivity.
  apply list_insert_insert_ne. lia.
Qed.

Lemma blit_store_comm xs : forall d off q x,
  q < off \/ off + Z.of_nat (length xs) <= q ->
  blit (store d q x) off xs = store (blit d off xs) q x.
Proof.
  induction xs as [| y xs IH]; intros d off q x Hq.
  - reflexivity.
  - cbn [blit length] in *. rewrite store_store_comm by lia.
    apply IH. lia.
Qed.

Lemma blit_app xs : forall d off ys,
  blit d off (xs ++ ys) = blit (blit d off xs) (off + Z.of_nat (length xs)) ys.
Proof.
  induction xs as [| x xs IH]; intros d off ys.
  - simpl. rewrite Z.add_0_r. reflexivity.
  - cbn [app blit length]. rewrite IH. f_equal. lia.
Qed.

Lemma store_middle (pre : list byte) m post x :
  store (pre ++ m :: post) (Z.of_nat (length pre)) x = pre ++ x :: post.
Proof.
  unfold store. destruct (Z.leb_spec 0 (Z.of_nat (length pre))); [| lia].
  rewrite Nat2Z.id, insert_app_r_alt by lia.
  rewrite Nat.sub_diag. reflexivity.
Qed.

Lemma blit_middle xs : forall pre mid post,
  length mid = length xs ->
  blit (pre ++ mid ++ post) (Z.of_nat (length pre)) xs = pre ++ xs ++ post.
Proof.
  induction xs as [| x xs IH]; intros pre mid post Hlen.
  - destruct mid; [reflexivity | discriminate].
  - destruct mid as [| m mid]; [discriminate |].
    cbn [blit app]. rewrite store_middle.
    specialize (IH (pre ++ [x]) mid post ltac:(simpl in Hlen; lia)).
    rewrite <- !app_assoc, length_app in IH. simpl in IH.
    rewrite <- IH. f_equal. lia.
Qed.

Lemma blit_all xs d : length d = length xs -> blit d 0 xs = xs.
Proof.
  intros Hlen. pose proof (blit_middle xs [] d [] Hlen) as H.
  simpl in H. rewrite !app_nil_r in H. exact H.
Qed.

Lemma concat_uniform_length (xs : list (list byte)) (w : Z) :
  Forall (fun x => Z.of_nat (length x) = w) xs ->
  Z.of_nat (length (concat xs)) = Z.of_nat (length xs) * w.
Proof.
  induction 1 as [| x xs Hx _ IH]; simpl.
  - reflexivity.
  - rewrite length_app. lia.
Qed.

(** ** Logical contents through the push loops *)

Lemma occupancy_of_contents b b' (k : nat) :
  cursors_ok b -> cursors_ok b' ->
  length (contents b') = (length (contents b) + k)%nat ->
  occupancy b' = occupancy b + Z.of_nat k.
Proof.
  intros Hc Hc' H. rewrite !contents_length in H.
  pose proof (occupancy_range b Hc). pose proof (occupancy_range b' Hc'). lia.
Qed.

Lemma bytes_at_length d n : forall off, length (bytes_at d off n) = n.
Proof. induction n as [| n IH]; intros off; simpl; auto. Qed.

Lemma push_bytes_fits n : forall b d e bi,
  cursors_ok b -> last_offset b < Z.of_nat (length (data b)) ->
  occupancy b + Z.of_nat n <= last_offset b ->
  exists b', push_bytes n b d e bi = inl b' /\
    contents b' = contents b ++ bytes_at d (uint (e * width b) + bi) n.
Proof.
  induction n as [| n IH]; intros b d e bi Hc Hlen Hfit.
  - exists b. simpl. rewrite app_nil_r. auto.
  - cbn [push_bytes bytes_at].
    assert (Hfull : isBufferFull b = false).
    { rewrite isBufferFull_occupancy by assumption. apply Z.eqb_neq. lia. }
    rewrite Hfull. simpl.
    set (x := load d (uint (e * width b) + bi)).
    pose proof (pushByte_shape b x) as Hs.
    pose proof (pushByte_contents b x Hc Hfull Hlen) as Hcont.
    pose proof (pushByte_occupancy b x Hc) as Ho. rewrite Hfull in Ho.
    destruct (IH (pushByte b x) d e (bi + 1)) as (b' & Hrun & Hc').
    + apply pushByte_cursors. assumption.
    + rewrite (same_shape_last_offset _ _ Hs).
      destruct Hs as (_ & _ & _ & ->). assumption.
    + rewrite (same_shape_last_offset _ _ Hs), Ho. lia.
    + exists b'. split; [exact Hrun |].
      rewrite Hc', Hcont, <- app_assoc.
      destruct Hs as (_ & -> & _). rewrite Z.add_assoc. reflexivity.
Qed.

Lemma push_elements_fits n : forall b d l e,
  cursors_ok b -> last_offset b < Z.of_nat (length (data b)) ->
  0 < width b ->
  occupancy b + Z.of_nat n * width b <= last_offset b ->
  0 <= e -> e + Z.of_nat n = l -> l * width b <= UINT_MAX ->
  let o := push_elements n b d l e in
  failed o = 0 /\
  contents (buf o) =
    contents b ++ bytes_at d (e * width b) (n * Z.to_nat (width b)).
Proof.
  induction n as [| n IH]; intros b d l e Hc Hlen Hw Hfit He Hl Hmax o; subst o.
  - simpl. rewrite app_nil_r. auto.
  - cbn [push_elements].
    destruct (push_bytes_fits (Z.to_nat (width b)) b d e 0 Hc Hlen)
      as (b' & Hrun & Hcont); [nia |].
    pose proof (push_bytes_keeps (Z.to_nat (width b)) b d e 0 Hc) as Hk.
    rewrite Hrun in *. destruct Hk as [Hs Hc'].
    rewrite uint_small, Z.add_0_r in Hcont by nia.
    assert (Ho : occupancy b' = occupancy b + width b).
    { rewrite (occupancy_of_contents b b' (Z.to_nat (width b))); try assumption.
      - lia.
      - rewrite Hcont, length_app, bytes_at_length. reflexivity. }
    assert (Hw' : width b' = width b) by apply Hs.
    rewrite (uint_small (e + 1)) by nia.
    assert (HL' : last_offset b' = last_offset b)
      by apply (same_shape_last_offset _ _ Hs).
    assert (Hlen' : last_offset b' < Z.of_nat (length (data b'))).
    { rewrite HL'. destruct Hs as (_ & _ & _ & ->). assumption. }
    destruct (IH b' d l (e + 1) Hc' Hlen') as [Hf Hcont'];
      rewrite ?HL', ?Ho, ?Hw'; try lia.
    split; [exact Hf |].
    rewrite Hcont', Hcont, Hw', <- app_assoc. f_equal.
    cbn [Nat.mul]. rewrite bytes_at_add. do 2 f_equal. lia.
Qed.

Lemma buffer_ok_storage b :
  buffer_ok b -> last_offset b < Z.of_nat (length (data b)).
Proof.
  intros Hb. rewrite (buffer_ok_last_offset b Hb).
  destruct Hb as (Hw & Hcap & _ & -> & _). unfold capacity in *. nia.
Qed.

Lemma pushToBuffer_fits b (es : list (list byte)) :
  buffer_ok b ->
  Forall (fun x => Z.of_nat (length x) = width b) es ->
  occupancy b + Z.of_nat (length es) * width b <= last_offset b ->
  let o := pushToBuffer b (concat es) (Z.of_nat (length es)) in
  failed o = 0 /\ contents (buf o) = contents b ++ concat es.
Proof.
  intros Hb Hes Hfit o. subst o. unfold pushToBuffer.
  pose proof (buffer_ok_storage b Hb) as Hlen.
  pose proof (concat_uniform_length es (width b) Hes) as Hcl.
  destruct Hb as (Hw & _ & _ & _ & Hc).
  pose proof (occupancy_range b Hc) as Ho.
  pose proof (last_offset_range b) as HL.
  rewrite Nat2Z.id.
  destruct (push_elements_fits (length es) b (concat es)
              (Z.of_nat (length es)) 0) as [Hf Hcont];
    try assumption; try lia.
  split; [exact Hf |]. rewrite Hcont. f_equal.
  replace (length es * Z.to_nat (width b))%nat with (length (concat es)) by nia.
  apply bytes_at_all.
Qed.

Lemma push_calls_fits calls : forall b,
  buffer_ok b ->
  Forall (fun x => Z.of_nat (length x) = width b) (concat calls) ->
  occupancy b + Z.of_nat (length (concat calls)) * width b <= last_offset b ->
  Forall (fun r => r = 0) (snd (push_calls b calls)) /\
  contents (fst (push_calls b calls)) = contents b ++ concat (concat calls) /\
  buffer_ok (fst (push_calls b calls)) /\
  same_shape b (fst (push_calls b calls)).
Proof.
  induction calls as [| es calls IH]; intros b Hb Hall Hfit.
  - simpl. rewrite app_nil_r. auto using same_shape_refl.
  - cbn [push_calls concat] in *.
    apply Forall_app in Hall. destruct Hall as [Hes Hrest].
    rewrite length_app in Hfit.
    assert (Hw : 0 < width b) by apply Hb.
    destruct (pushToBuffer_fits b es Hb Hes) as [Hf Hcont]; [nia |].
    destruct (pushToBuffer_ok b (concat es) (Z.of_nat (length es)) Hb)
      as [Hb1 Hs1].
    set (b1 := buf (pushToBuffer b (concat es) (Z.of_nat (length es)))) in *.
    assert (Hw1 : width b1 = width b) by apply Hs1.
    assert (Ho1 : occupancy b1 = occupancy b + Z.of_nat (length (concat es))).
    { apply occupancy_of_contents; [apply Hb | apply Hb1 |].
      rewrite Hcont, length_app. reflexivity. }
    pose proof (concat_uniform_length es (width b) Hes) as Hcl.
    destruct (IH b1 Hb1) as (Hrs & Hcont' & Hb' & Hs').
    + rewrite Hw1. assumption.
    + rewrite (same_shape_last_offset _ _ Hs1), Ho1, Hw1. lia.
    + destruct (push_calls b1 calls) as [b' rs]. simpl in *.
      split; [constructor; assumption |].
      split; [| split; [exact Hb' | eapply same_shape_trans; eassumption]].
      rewrite Hcont', Hcont, <- app_assoc, concat_app. reflexivity.
Qed.

(** ** Logical contents through the pop loops *)

Lemma pop_bytes_queue n : forall b d e bi,
  cursors_ok b -> bits_stack b = false -> Z.of_nat n <= occupancy b ->
  exists b',
    pop_bytes n b d e bi =
      inl (b', blit d (uint (e * width b) + bi) (take n (contents b))) /\
    contents b' = drop n (contents b).
Proof.
  induction n as [| n IH]; intros b d e bi Hc Hst Hn.
  - exists b. simpl. auto.
  - cbn [pop_bytes].
    assert (Hne : isBufferEmpty b = false).
    { rewrite isBufferEmpty_occupancy by assumption. apply Z.eqb_neq. lia. }
    rewrite Hne, Hst. simpl.
    pose proof (popByte_queue_contents b Hc Hst Hne) as Hcont.
    pose proof (popByte_occupancy b Hc Hne) as Ho.
    pose proof (popByte_cursors b Hc) as Hc1.
    pose proof (popByte_shape b) as Hs.
    destruct (popByte b) as [b1 x]. simpl in Hcont, Ho, Hc1, Hs.
    destruct (IH b1 (store d (uint (e * width b) + bi) x) e (bi + 1))
      as (b' & Hrun & Hcont'); [assumption | | lia |].
    + rewrite (proj2 (same_shape_bits _ _ Hs)). assumption.
    + exists b'. rewrite Hrun, Hcont', Hcont.
      destruct Hs as (_ & -> & _). rewrite Z.add_assoc. auto.
Qed.

Lemma pop_bytes_stack n : forall b d e bi,
  cursors_ok b -> bits_stack b = true -> Z.of_nat n <= occupancy b ->
  exists b' taken,
    pop_bytes n b d e bi =
      inl (b', blit d (uint (uint (e + 1) * width b) - bi - Z.of_nat n) taken) /\
    contents b = contents b' ++ taken /\ length taken = n.
Proof.
  induction n as [| n IH]; intros b d e bi Hc Hst Hn.
  - exists b, []. simpl. rewrite app_nil_r. auto.
  - cbn [pop_bytes].
    assert (Hne : isBufferEmpty b = false).
    { rewrite isBufferEmpty_occupancy by assumption. apply Z.eqb_neq. lia. }
    rewrite Hne, Hst. simpl negb. cbv iota.
    pose proof (popByte_stack_contents b Hc Hst Hne) as Hcont.
    pose proof (popByte_occupancy b Hc Hne) as Ho.
    pose proof (popByte_cursors b Hc) as Hc1.
    pose proof (popByte_shape b) as Hs.
    destruct (popByte b) as [b1 x]. simpl in Hcont, Ho, Hc1, Hs.
    set (E := uint (uint (e + 1) * width b)).
    destruct (IH b1 (store d (E - 1 - bi) x) e (bi + 1))
      as (b' & taken & Hrun & Hcont' & Hlen); [assumption | | lia |].
    + rewrite (proj2 (same_shape_bits _ _ Hs)). assumption.
    + exists b', (taken ++ [x]). rewrite Hrun.
      destruct Hs as (_ & -> & _). fold E.
      split; [| split].
      * f_equal. f_equal. rewrite blit_store_comm by lia.
        rewrite blit_app. simpl.
        replace (E - (bi + 1) - Z.of_nat n) with (E - bi - Z.of_nat (S n)) by lia.
        f_equal. lia.
      * rewrite Hcont, Hcont', app_assoc. reflexivity.
      * rewrite length_app. simpl. lia.
Qed.

Lemma pop_elements_queue xs : forall b d l e post,
  cursors_ok b -> bits_stack b = false -> 0 < width b ->
  Forall (fun x => Z.of_nat (length x) = width b) xs ->
  contents b = concat xs ++ post ->
  0 <= e -> e + Z.of_nat (length xs) = l -> l * width b <= UINT_MAX ->
  let o := pop_elements (length xs) b d l e in
  failed o = 0 /\ mem o = blit d (e * width b) (concat xs) /\
  contents (buf o) = post.
Proof.
  induction xs as [| x xs IH];
    intros b d l e post Hc Hst Hw Hall Hcont He Hl Hmax o; subst o.
  - simpl in *. auto.
  - cbn [length pop_elements concat] in *.
    apply Forall_cons in Hall. destruct Hall as [Hx Hall].
    assert (Hx' : Z.to_nat (width b) = length x) by lia.
    destruct (pop_bytes_queue (Z.to_nat (width b)) b d e 0 Hc Hst)
      as (b' & Hrun & Hcont').
    { pose proof (contents_length b) as Hcl.
      rewrite Hcont, !length_app in Hcl.
      pose proof (occupancy_range b Hc). lia. }
    pose proof (pop_bytes_keeps (Z.to_nat (width b)) b d e 0 Hc) as Hk.
    rewrite Hrun in *. destruct Hk as [Hs Hc'].
    rewrite Hcont, Hx', <- app_assoc in Hrun, Hcont'.
    rewrite take_app_length in Hrun. rewrite drop_app_length in Hcont'.
    rewrite Hcont, Hx', <- app_assoc, take_app_length.
    rewrite uint_small, Z.add_0_r by nia.
    rewrite (uint_small (e + 1)) by nia.
    assert (Hw' : width b' = width b) by apply Hs.
    destruct (IH b' (blit d (e * width b) x) l (e + 1) post)
      as (Hf & Hmem & Hpost); rewrite ?Hw'; try assumption; try lia.
    { rewrite (proj2 (same_shape_bits _ _ Hs)). assumption. }
    split; [exact Hf |]. split; [| exact Hpost].
    rewrite Hmem, Hw', blit_app. f_equal. lia.
Qed.

Lemma pop_elements_stack xs : forall b d l e pre,
  cursors_ok b -> bits_stack b = true -> 0 < width b ->
  Forall (fun x => Z.of_nat (length x) = width b) xs ->
  contents b = pre ++ concat xs ->
  0 <= e -> e + Z.of_nat (length xs) = l -> l * width b <= UINT_MAX ->
  let o := pop_elements (length xs) b d l e in
  failed o = 0 /\ mem o = blit d (e * width b) (concat (rev xs)) /\
  contents (buf o) = pre.
Proof.
  induction xs as [| x xs IH] using rev_ind;
    intros b d l e pre Hc Hst Hw Hall Hcont He Hl Hmax o; subst o.
  - simpl in *. rewrite app_nil_r in Hcont. auto.
  - rewrite length_app in *. simpl length in *.
    rewrite Nat.add_1_r in *. cbn [pop_elements].
    apply Forall_app in Hall. destruct Hall as [Hall Hx].
    apply Forall_cons in Hx. destruct Hx as [Hx _].
    rewrite concat_app in Hcont. simpl in Hcont.
    rewrite app_nil_r, app_assoc in Hcont.
    destruct (pop_bytes_stack (Z.to_nat (width b)) b d e 0 Hc Hst)
      as (b' & taken & Hrun & Hcont' & Hlen).
    { pose proof (contents_length b) as Hcl.
      rewrite Hcont, !length_app in Hcl.
      pose proof (occupancy_range b Hc). lia. }
    pose proof (pop_bytes_keeps (Z.to_nat (width b)) b d e 0 Hc) as Hk.
    rewrite Hrun in *. destruct Hk as [Hs Hc'].
    rewrite Hcont in Hcont'.
    apply app_inj_2 in Hcont'; [| lia]. destruct Hcont' as [Hpre <-].
    rewrite (uint_small (e + 1)) by nia.
    rewrite (uint_small ((e + 1) * width b)) by nia.
    replace ((e + 1) * width b - 0 - Z.of_nat (Z.to_nat (width b)))
      with (e * width b) by lia.
    assert (Hw' : width b' = width b) by apply Hs.
    destruct (IH b' (blit d (e * width b) x) l (e + 1) pre)
      as (Hf & Hmem & Hpost); rewrite ?Hw'; try assumption; try lia.
    { rewrite (proj2 (same_shape_bits _ _ Hs)). assumption. }
    { symmetry. exact Hpre. }
    split; [exact Hf |]. split; [| exact Hpost].
    rewrite Hmem, Hw', rev_app_distr. simpl. rewrite blit_app.
    f_equal. lia.
Qed.

Lemma empty_contents b :
  cursors_ok b -> (isBufferEmpty b = true <-> contents b = []).
Proof.
  intros Hc. rewrite isBufferEmpty_occupancy by assumption.
  pose proof (occupancy_range b Hc) as Ho.
  pose proof (contents_length b) as Hl.
  split; intros H.
  - apply Z.eqb_eq in H. rewrite H in Hl. simpl in Hl.
    destruct (contents b); [reflexivity | discriminate].
  - rewrite H in Hl. simpl in Hl. apply Z.eqb_eq. lia.
Qed.

(** ** Round trip *)

(** X16.  For every empty buffer that satisfies the representation
    invariant, with storage size representable in [unsigned int] (either
    mode; dropping or overwriting), and every sequence of push calls whose elements, each [width b] bytes long,
    number at most [capacity b] in total: every push returns 0, and popping
    that many elements returns 0 and fills the destination, in queue mode
    with the elements in push order, in stack mode with the elements in
    reverse push order, each element's bytes in their original order; the
    buffer is empty again afterwards. *)
Theorem push_pop_round_trip (b : buffer_t) (calls : list (list (list byte)))
    (dest : list byte) :
  buffer_ok b -> isBufferEmpty b = true ->
  Forall (fun x => Z.of_nat (length x) = width b) (concat calls) ->
  Z.of_nat (length (concat calls)) <= capacity b ->
  length dest = length (concat (concat calls)) ->
  let pushed := push_calls b calls in
  let o := popFromBuffer (fst pushed) dest (Z.of_nat (length (concat calls))) in
  Forall (fun r => r = 0) (snd pushed) /\
  failed o = 0 /\
  mem o = concat (if bits_stack b then rev (concat calls) else concat calls) /\
  isBufferEmpty (buf o) = true.
Proof.
  intros Hb Hempty Hall Hcount Hdest pushed o.
  pose proof (buffer_ok_last_offset b Hb) as HL.
  assert (Hc : cursors_ok b) by apply Hb.
  assert (Hw : 0 < width b) by apply Hb.
  pose proof (last_offset_range b) as HLr.
  assert (Hnil : contents b = []) by (apply empty_contents; assumption).
  assert (Hocc : occupancy b = 0).
  { rewrite isBufferEmpty_occupancy in Hempty by assumption.
    apply Z.eqb_eq. assumption. }
  destruct (push_calls_fits calls b Hb Hall) as (Hrs & Hcont & Hb1 & Hs).
  { rewrite Hocc, HL. nia. }
  fold pushed in Hrs, Hcont, Hb1, Hs.
  rewrite Hnil in Hcont. simpl in Hcont.
  set (b1 := fst pushed) in *.
  assert (Hw1 : width b1 = width b) by apply Hs.
  assert (Hst1 : bits_stack b1 = bits_stack b) by apply (same_shape_bits _ _ Hs).
  assert (Hc1 : cursors_ok b1) by apply Hb1.
  rewrite <- Hw1 in Hall.
  assert (Hmax : Z.of_nat (length (concat calls)) * width b1 <= UINT_MAX).
  { rewrite Hw1. nia. }
  split; [exact Hrs |]. subst o. unfold popFromBuffer. rewrite Nat2Z.id.
  destruct (bits_stack b) eqn:Hst.
  - destruct (pop_elements_stack (concat calls) b1 dest
                (Z.of_nat (length (concat calls))) 0 [])
      as (Hf & Hmem & Hpost); try assumption; try lia.
    split; [exact Hf |]. split.
    + rewrite Hmem. apply blit_all. apply Nat2Z.inj. rewrite Hdest.
      rewrite (concat_uniform_length _ (width b1) Hall).
      rewrite (concat_uniform_length (rev (concat calls)) (width b1))
        by (apply Forall_rev; assumption).
      rewrite length_rev. reflexivity.
    + apply empty_contents; [| exact Hpost].
      apply (pop_elements_keeps _ b1 dest _ 0 Hc1).
  - destruct (pop_elements_queue (concat calls) b1 dest
                (Z.of_nat (length (concat calls))) 0 [])
      as (Hf & Hmem & Hpost); try assumption; try lia.
    { rewrite app_nil_r. assumption. }
    split; [exact Hf |]. split.
    + rewrite Hmem. apply blit_all. assumption.
    + apply empty_contents; [| exact Hpost].
      apply (pop_elements_keeps _ b1 dest _ 0 Hc1).
Qed.

Lemma push_pop_round_trip_witness :
  let calls := [[int_bytes 10; int_bytes 20]; [int_bytes 30]] in
  let pushed := push_calls stack34 calls in
  let o := popFromBuffer (fst pushed) twelve (Z.of_nat (length (concat calls))) in
  Forall (fun r => r = 0) (snd pushed) /\
  failed o = 0 /\
  mem o = concat (if bits_stack stack34
                  then rev (concat calls) else concat calls) /\
  isBufferEmpty (buf o) = true.
Proof.
  apply (push_pop_round_trip stack34
           [[int_bytes 10; int_bytes 20]; [int_bytes 30]] twelve).
  - by_evaluation.
  - reflexivity.
  - repeat constructor.
  - discriminate.
  - reflexivity.
Defined.

(** * Further properties of buffer.c and buffer.h *)

(** ** Configuration byte *)

(** X1.  The configuration constants act as independent masks on the
    behaviour byte: and-ing with [B_QUEUE] clears the stack bit and
    and-ing with [B_DROP] clears the overwrite bit, each leaving the other
    bit as it was, while [B_STACK] and [B_OVERWRITE] leave both bits as
    they were.  So a bit is set exactly when no clearing mask was applied,
    in whatever order the constants are combined. *)
Theorem behavior_masks (b : buffer_t) (c : Z) :
  (behavior b = Z.land c B_QUEUE ->
     bits_stack b = false /\ bits_overwrite b = Z.testbit c 6) /\
  (behavior b = Z.land c B_DROP ->
     bits_overwrite b = false /\ bits_stack b = Z.testbit c 7) /\
  (behavior b = Z.land c B_STACK ->
     bits_stack b = Z.testbit c 7 /\ bits_overwrite b = Z.testbit c 6) /\
  (behavior b = Z.land c B_OVERWRITE ->
     bits_stack b = Z.testbit c 7 /\ bits_overwrite b = Z.testbit c 6).
Proof.
  unfold bits_stack, bits_overwrite.
  repeat match goal with |- _ /\ _ => split end;
    intros ->; rewrite !Z.land_spec;
    unfold B_QUEUE, B_DROP, B_STACK, B_OVERWRITE;
    change (Z.testbit 127 7) with false; change (Z.testbit 127 6) with true;
    change (Z.testbit 191 7) with true; change (Z.testbit 191 6) with false;
    change (Z.testbit 255 7) with true; change (Z.testbit 255 6) with true;
    rewrite ?andb_true_r, ?andb_false_r; auto.
Qed.

Lemma behavior_masks_witness :
  bits_stack queue34 = false /\ bits_overwrite queue34 = Z.testbit B_DROP 6.
Proof.
  destruct (behavior_masks queue34 B_DROP) as (H & _).
  apply H. reflexivity.
Defined.

(** ** Empty and full *)

(** X2.  A buffer whose last offset is positive is never empty and full at
    once; when the last offset is 0 (no usable byte) the buffer is always
    both. *)
Theorem empty_full_exclusive (b : buffer_t) :
  cursors_ok b ->
  (0 < last_offset b -> isBufferEmpty b && isBufferFull b = false) /\
  (last_offset b = 0 -> isBufferEmpty b = true /\ isBufferFull b = true).
Proof.
  intros Hc. rewrite isBufferEmpty_occupancy, isBufferFull_occupancy by assumption.
  pose proof (occupancy_range b Hc). split; intros HL.
  - zcases; simpl; try reflexivity; lia.
  - split; zcases; try reflexivity; lia.
Qed.

Lemma empty_full_exclusive_witness :
  isBufferEmpty queue34_full && isBufferFull queue34_full = false.
Proof.
  assert (Hc : cursors_ok queue34_full) by by_evaluation.
  destruct (empty_full_exclusive queue34_full Hc) as [H _].
  apply H. reflexivity.
Defined.

(** ** Iterated cursor steps *)

Lemma increment_mod b c :
  0 <= c <= last_offset b -> increment b c = (c + 1) mod (last_offset b + 1).
Proof.
  intros Hc. unfold increment. zcases.
  - symmetry. apply Z.mod_small. lia.
  - replace c with (last_offset b) by lia. symmetry. apply Z_mod_same_full.
Qed.

Lemma decrement_mod b c :
  0 <= c <= last_offset b -> decrement b c = (c - 1) mod (last_offset b + 1).
Proof.
  intros Hc. unfold decrement. zcases.
  - symmetry. apply Z.mod_small. lia.
  - apply Z.mod_unique with (q := -1); lia.
Qed.

(** X3.  [k] applications of [increment] move a cursor [k] bytes forward
    around the ring of [last_offset b + 1] positions, and [k] applications
    of [decrement] move it [k] bytes back; in particular a full turn
    returns the cursor to where it was. *)
Theorem iterated_steps (b : buffer_t) (c : Z) (k : nat) :
  0 <= c <= last_offset b ->
  Nat.iter k (increment b) c = (c + Z.of_nat k) mod (last_offset b + 1) /\
  Nat.iter k (decrement b) c = (c - Z.of_nat k) mod (last_offset b + 1) /\
  Nat.iter (Z.to_nat (last_offset b + 1)) (increment b) c = c.
Proof.
  intros Hc. pose proof (last_offset_range b) as HL.
  assert (Hinc : forall n, Nat.iter n (increment b) c =
                           (c + Z.of_nat n) mod (last_offset b + 1)).
  { induction n as [| n IH].
    - simpl. rewrite Z.add_0_r. symmetry. apply Z.mod_small. lia.
    - rewrite Nat.iter_succ, IH, increment_mod.
      + rewrite Z.add_mod_idemp_l by lia. f_equal. lia.
      + pose proof (Z.mod_pos_bound (c + Z.of_nat n) (last_offset b + 1)). lia. }
  split; [apply Hinc |]. split.
  - induction k as [| n IH].
    + simpl. rewrite Z.sub_0_r. symmetry. apply Z.mod_small. lia.
    + rewrite Nat.iter_succ, IH, decrement_mod.
      * rewrite Zminus_mod_idemp_l. f_equal. lia.
      * pose proof (Z.mod_pos_bound (c - Z.of_nat n) (last_offset b + 1)). lia.
  - rewrite Hinc, Z2Nat.id by lia.
    replace (c + (last_offset b + 1)) with (c + 1 * (last_offset b + 1)) by lia.
    rewrite Z.mod_add by lia. apply Z.mod_small. lia.
Qed.

Lemma iterated_steps_witness :
  Nat.iter 20 (increment queue34) 5 = (5 + 20) mod (last_offset queue34 + 1).
Proof.
  assert (H : 0 <= 5 <= last_offset queue34) by by_evaluation.
  exact (proj1 (iterated_steps queue34 5 20 H)).
Defined.

(** ** The byte primitives on the logical contents *)

Lemma contents_nil_of_occupancy b :
  occupancy b = 0 -> contents b = [].
Proof.
  intros H. pose proof (contents_length b) as Hl. rewrite H in Hl.
  destruct (contents b); [reflexivity | discriminate].
Qed.

Lemma pushByte_full_overwrite_contents b x :
  cursors_ok b -> isBufferFull b = true -> bits_overwrite b = true ->
  last_offset b < Z.of_nat (length (data b)) ->
  contents (pushByte b x) = drop 1 (contents b ++ [x]).
Proof.
  intros Hc Hfull Hov Hlen.
  pose proof (isBufferFull_occupancy b Hc) as Hf. rewrite Hfull in Hf.
  symmetry in Hf. apply Z.eqb_eq in Hf.
  pose proof (head_ring_pos b Hc) as Hh. rewrite Hf in Hh.
  pose proof (last_offset_range b) as HL.
  pose proof (pushByte_occupancy b x Hc) as Ho. rewrite Hfull, Hov in Ho.
  destruct (Z.eq_dec (last_offset b) 0) as [H0 | H0].
  - rewrite (contents_nil_of_occupancy (pushByte b x)) by lia.
    rewrite (contents_nil_of_occupancy b) by lia. reflexivity.
  - set (m := Z.to_nat (last_offset b - 1)).
    assert (Hm : Z.to_nat (last_offset b) = S m) by (unfold m; lia).
    assert (Hcb : contents b =
              load (data b) (ring_pos b (tail b) 0) ::
              map (fun i => load (data b) (ring_pos b (tail b) (Z.of_nat (S i))))
                  (seq 0 m)).
    { unfold contents. rewrite Hf, Hm, <- cons_seq, <- seq_shift.
      cbn [map]. rewrite map_map. reflexivity. }
    rewrite Hcb. cbn [app drop].
    unfold contents. rewrite Ho, Hm, pushByte_tail, Hfull, Hov, pushByte_data.
    cbn [andb]. rewrite seq_S, map_app. cbn [map Nat.add]. rewrite drop_0.
    destruct Hc as [Hhd Htl]. f_equal.
    + apply map_ext_in. intros i Hi. apply in_seq in Hi.
      rewrite (ring_pos_shape _ _ _ _ (pushByte_shape b x)).
      rewrite increment_ring_pos, ring_pos_add by lia.
      rewrite load_store_other.
      * f_equal. f_equal. lia.
      * rewrite Hh. apply not_eq_sym, ring_pos_inj; [assumption | lia | lia].
    + f_equal. rewrite (ring_pos_shape _ _ _ _ (pushByte_shape b x)).
      rewrite increment_ring_pos, ring_pos_add by lia.
      replace (1 + Z.of_nat m) with (last_offset b) by lia.
      rewrite <- Hh. apply load_store_same. lia.
Qed.

(** X4.  [pushByte] on the logical contents: on a buffer that is not full
    it appends the byte; on a full buffer with the overwrite bit it drops
    the oldest byte and appends; on a full buffer without the overwrite
    bit (the function itself does not refuse) [head] runs onto [tail] and
    the buffer reads as empty. *)
Theorem pushByte_on_contents (b : buffer_t) (x : byte) :
  cursors_ok b -> last_offset b < Z.of_nat (length (data b)) ->
  contents (pushByte b x) =
    if isBufferFull b
    then (if bits_overwrite b then drop 1 (contents b ++ [x]) else [])
    else contents b ++ [x].
Proof.
  intros Hc Hlen.
  destruct (isBufferFull b) eqn:Hfull; [destruct (bits_overwrite b) eqn:Hov |].
  - apply pushByte_full_overwrite_contents; assumption.
  - apply contents_nil_of_occupancy.
    rewrite pushByte_occupancy, Hfull, Hov by assumption. reflexivity.
  - apply pushByte_contents; assumption.
Qed.

Lemma pushByte_on_contents_witness :
  contents (pushByte queue34_full x2a) =
    if isBufferFull queue34_full
    then (if bits_overwrite queue34_full
          then drop 1 (contents queue34_full ++ [x2a]) else [])
    else contents queue34_full ++ [x2a].
Proof.
  apply (pushByte_on_contents queue34_full x2a); by_evaluation.
Defined.

(** X5.  [popByte] on a non-empty buffer: in queue mode it returns the
    oldest byte of the contents and leaves the rest, in stack mode it
    returns the newest byte and leaves the rest; in both modes the storage
    block is not written. *)
Theorem popByte_on_contents (b : buffer_t) :
  cursors_ok b -> isBufferEmpty b = false ->
  contents b =
    (if bits_stack b
     then contents (fst (popByte b)) ++ [snd (popByte b)]
     else snd (popByte b) :: contents (fst (popByte b))) /\
  data (fst (popByte b)) = data b.
Proof.
  intros Hc Hne. split; [| apply popByte_frame].
  destruct (bits_stack b) eqn:Hst.
  - apply popByte_stack_contents; assumption.
  - apply popByte_queue_contents; assumption.
Qed.

Lemma popByte_on_contents_witness :
  contents queue34_full =
    (if bits_stack queue34_full
     then contents (fst (popByte queue34_full)) ++ [snd (popByte queue34_full)]
     else snd (popByte queue34_full) :: contents (fst (popByte queue34_full))) /\
  data (fst (popByte queue34_full)) = data queue34_full.
Proof.
  apply (popByte_on_contents queue34_full); by_evaluation.
Defined.

(** ** Pushing to a full buffer *)

(** X6.  Under the dropping policy, [pushToBuffer] on a full buffer
    returns the requested count [l] and leaves the buffer unchanged:
    cursors and storage are as before and no byte is undone. *)
Theorem push_full_unchanged (b : buffer_t) (d : list byte) (l : Z) :
  0 < width b -> 0 <= l <= UINT_MAX ->
  bits_overwrite b = false -> isBufferFull b = true ->
  failed (pushToBuffer b d l) = l /\
  buf (pushToBuffer b d l) = b /\
  undone (pushToBuffer b d l) = 0.
Proof.
  intros Hw Hl Hov Hfull. unfold pushToBuffer.
  destruct (Z.to_nat l) as [| n] eqn:En; simpl.
  - repeat split; auto. lia.
  - destruct (Z.to_nat (width b)) as [| k] eqn:Ek; [lia |].
    simpl. rewrite Hfull, Hov. simpl.
    rewrite Z.sub_0_r, uint_small by lia. auto.
Qed.

Lemma push_full_unchanged_witness :
  failed (pushToBuffer queue34_full twelve 2) = 2 /\
  buf (pushToBuffer queue34_full twelve 2) = queue34_full /\
  undone (pushToBuffer queue34_full twelve 2) = 0.
Proof.
  apply (push_full_unchanged queue34_full twelve 2); by_evaluation.
Defined.

(** ** Pushing under the overwrite policy *)

Lemma push_bytes_overwrite_inl n : forall b d e bi,
  bits_overwrite b = true ->
  exists b', push_bytes n b d e bi = inl b' /\ same_shape b b'.
Proof.
  induction n as [| n IH]; intros b d e bi Hov.
  - exists b. split; [reflexivity | apply same_shape_refl].
  - cbn [push_bytes]. rewrite Hov, orb_true_r.
    set (b1 := pushByte b _).
    assert (Hs : same_shape b b1) by apply pushByte_shape.
    destruct (IH b1 d e (bi + 1)) as (b' & Hrun & Hs').
    + rewrite (proj1 (same_shape_bits _ _ Hs)). assumption.
    + exists b'. split; [exact Hrun | eapply same_shape_trans; eassumption].
Qed.

Lemma push_elements_overwrite_zero n : forall b d l e,
  bits_overwrite b = true ->
  failed (push_elements n b d l e) = 0 /\ undone (push_elements n b d l e) = 0.
Proof.
  induction n as [| n IH]; intros b d l e Hov.
  - simpl. auto.
  - cbn [push_elements].
    destruct (push_bytes_overwrite_inl (Z.to_nat (width b)) b d e 0 Hov)
      as (b' & -> & Hs).
    apply IH. rewrite (proj1 (same_shape_bits _ _ Hs)). assumption.
Qed.

Lemma push_elements_overwrite_occupancy n : forall b d l e,
  cursors_ok b -> bits_overwrite b = true -> 0 <= width b ->
  occupancy (buf (push_elements n b d l e)) =
    Z.min (occupancy b + Z.of_nat n * width b) (last_offset b).
Proof.
  induction n as [| n IH]; intros b d l e Hc Hov Hw.
  - simpl. pose proof (occupancy_range b Hc). lia.
  - cbn [push_elements].
    pose proof (push_bytes_overwrite (Z.to_nat (width b)) b d e 0 Hc Hov) as Hb.
    pose proof (push_bytes_keeps (Z.to_nat (width b)) b d e 0 Hc) as Hk.
    rewrite Z2Nat.id in Hb by lia.
    destruct (push_bytes (Z.to_nat (width b)) b d e 0) as [b' | ?];
      [| contradiction].
    destruct Hk as [Hs Hc'].
    rewrite IH; try assumption.
    + rewrite (same_shape_last_offset _ _ Hs), Hb.
      destruct Hs as (_ & -> & _). nia.
    + rewrite (proj1 (same_shape_bits _ _ Hs)). assumption.
    + destruct Hs as (_ & -> & _). assumption.
Qed.

(** X7.  Under the overwrite policy [pushToBuffer] returns 0 for every
    buffer, block and count, and undoes nothing; the occupancy grows by the
    bytes pushed until it reaches the last offset and then stays there, so
    a full buffer stays full. *)
Theorem push_overwrite_never_fails (b : buffer_t) (d : list byte) (l : Z) :
  bits_overwrite b = true ->
  failed (pushToBuffer b d l) = 0 /\
  undone (pushToBuffer b d l) = 0 /\
  (cursors_ok b -> 0 <= width b -> 0 <= l ->
   occupancy (buf (pushToBuffer b d l)) =
     Z.min (occupancy b + l * width b) (last_offset b)).
Proof.
  intros Hov. unfold pushToBuffer.
  destruct (push_elements_overwrite_zero (Z.to_nat l) b d l 0 Hov) as [Hf Hu].
  split; [exact Hf |]. split; [exact Hu |].
  intros Hc Hw Hl.
  rewrite push_elements_overwrite_occupancy, Z2Nat.id by (assumption || lia).
  reflexivity.
Qed.

Lemma push_overwrite_never_fails_witness :
  failed (pushToBuffer ring34 twelve 5) = 0 /\
  undone (pushToBuffer ring34 twelve 5) = 0 /\
  (cursors_ok ring34 -> 0 <= width ring34 -> 0 <= 5 ->
   occupancy (buf (pushToBuffer ring34 twelve 5)) =
     Z.min (occupancy ring34 + 5 * width ring34) (last_offset ring34)).
Proof.
  apply (push_overwrite_never_fails ring34 twelve 5). reflexivity.
Defined.

(** ** The count popFromBuffer returns *)

Lemma pop_elements_count n : forall b d l e,
  cursors_ok b -> 0 < width b ->
  0 <= e -> e + Z.of_nat n = l -> l <= UINT_MAX ->
  let avail := occupancy b / width b in
  let o := pop_elements n b d l e in
  (Z.of_nat n <= avail ->
     failed o = 0 /\ undone o = 0 /\
     occupancy (buf o) = occupancy b - Z.of_nat n * width b) /\
  (avail < Z.of_nat n ->
     failed o = Z.of_nat n - avail /\ undone o = occupancy b mod width b).
Proof.
  induction n as [| n IH]; intros b d l e Hc Hw He Hl Hmax avail o; subst o.
  - pose proof (occupancy_range b Hc) as Ho.
    assert (0 <= avail) by (apply Z.div_pos; lia).
    simpl. split; intros; [repeat split |]; lia.
  - cbn [pop_elements].
    pose proof (occupancy_range b Hc) as Ho.
    pose proof (pop_bytes_occupancy (Z.to_nat (width b)) b d e 0 Hc) as Hb.
    pose proof (pop_bytes_keeps (Z.to_nat (width b)) b d e 0 Hc) as Hk.
    rewrite Z2Nat.id in Hb by lia.
    destruct (pop_bytes (Z.to_nat (width b)) b d e 0)
      as [[b' d'] | [[b' d'] k]]; destruct Hk as [Hs Hc'].
    + destruct Hb as [Hge Ho'].
      assert (Hw' : width b' = width b) by apply Hs.
      rewrite (uint_small (e + 1)) by lia.
      specialize (IH b' d' l (e + 1) Hc' ltac:(lia) ltac:(lia) ltac:(lia) Hmax).
      cbv zeta in IH. rewrite Ho', Hw' in IH.
      destruct (div_mod_step (occupancy b) (width b)) as [Hq Hr]; [lia | lia |].
      rewrite Hq, Hr in IH. fold avail in IH.
      destruct IH as [IHok IHfail]. split; intros Hn.
      * destruct IHok as (? & ? & ?); [lia |]. repeat split; try assumption. lia.
      * destruct IHfail as (? & ?); [lia |]. split; [lia | assumption].
    + destruct Hb as (Hlt & Hk & _). cbn [failed undone].
      assert (Havail : avail = 0) by (apply Z.div_small; lia).
      rewrite Havail, Z.mod_small, uint_small by lia.
      split; intros Hn; [lia |]. split; lia.
Qed.

(** X8.  [popFromBuffer] returns the number of requested elements that
    were not in the buffer: with [avail = occupancy / width] whole elements
    held, a call for at most [avail] elements returns 0 and lowers the
    occupancy by [l * width] bytes; a call for more returns [l - avail],
    after finding the buffer empty [occupancy mod width] bytes into the
    next element. *)
Theorem pop_returns_shortfall (b : buffer_t) (d : list byte) (l : Z) :
  cursors_ok b -> 0 < width b -> 0 <= l <= UINT_MAX ->
  let avail := occupancy b / width b in
  let o := popFromBuffer b d l in
  (l <= avail ->
     failed o = 0 /\ undone o = 0 /\
     occupancy (buf o) = occupancy b - l * width b) /\
  (avail < l ->
     failed o = l - avail /\ undone o = occupancy b mod width b).
Proof.
  intros Hc Hw Hl avail o.
  pose proof (pop_elements_count (Z.to_nat l) b d l 0 Hc Hw
                ltac:(lia) ltac:(lia) ltac:(lia)) as H.
  cbv zeta in H. rewrite Z2Nat.id in H by lia. exact H.
Qed.

Lemma pop_returns_shortfall_witness :
  failed (popFromBuffer queue34_full twelve 5) = 5 - 3 /\
  undone (popFromBuffer queue34_full twelve 5) = 0.
Proof.
  assert (Hc : cursors_ok queue34_full) by by_evaluation.
  assert (Hw : 0 < width queue34_full) by reflexivity.
  assert (Hl : 0 <= 5 <= UINT_MAX) by by_evaluation.
  destruct (pop_returns_shortfall queue34_full twelve 5 Hc Hw Hl) as [_ H].
  exact (H eq_refl).
Defined.

(** ** What popFromBuffer leaves alone *)

Lemma pop_bytes_store n : forall b d e bi,
  match pop_bytes n b d e bi with
  | inl (b', _) | inr (b', _, _) =>
      data b' = data b /\
      (bits_stack b = false -> head b' = head b) /\
      (bits_stack b = true -> tail b' = tail b)
  end.
Proof.
  induction n as [| n IH]; intros b d e bi; simpl.
  - auto.
  - destruct (negb (isBufferEmpty b)); [| auto].
    pose proof (popByte_shape b) as Hs.
    assert (Hp : data (fst (popByte b)) = data b /\
                 (bits_stack b = false -> head (fst (popByte b)) = head b) /\
                 (bits_stack b = true -> tail (fst (popByte b)) = tail b)).
    { unfold popByte. destruct (bits_stack b); simpl;
        (split; [reflexivity | split; intros; congruence]). }
    destruct (popByte b) as [b1 x]. simpl in Hs, Hp.
    set (d' := if bits_stack b then _ else _).
    specialize (IH b1 d' e (bi + 1)).
    rewrite (proj2 (same_shape_bits _ _ Hs)) in IH.
    destruct Hp as (Hd & Hh & Ht).
    destruct (pop_bytes n b1 d' e (bi + 1)) as [[b' ?] | [[b' ?] ?]];
      destruct IH as (IHd & IHh & IHt);
      (split; [congruence | split; intros Hst;
                 [rewrite IHh, Hh | rewrite IHt, Ht]; auto]).
Qed.

Lemma pop_bytes_shape n : forall b d e bi,
  match pop_bytes n b d e bi with
  | inl (b', _) | inr (b', _, _) => same_shape b b'
  end.
Proof.
  induction n as [| n IH]; intros b d e bi; simpl.
  - apply same_shape_refl.
  - destruct (negb (isBufferEmpty b)); [| apply same_shape_refl].
    pose proof (popByte_shape b) as Hs.
    destruct (popByte b) as [b1 x]. simpl in Hs.
    set (d' := if bits_stack b then _ else _).
    specialize (IH b1 d' e (bi + 1)).
    destruct (pop_bytes n b1 d' e (bi + 1)) as [[b' ?] | [[b' ?] ?]];
      eapply same_shape_trans; eassumption.
Qed.

Lemma pop_elements_store n : forall b d l e,
  undone (pop_elements n b d l e) = 0 ->
  data (buf (pop_elements n b d l e)) = data b /\
  (bits_stack b = false -> head (buf (pop_elements n b d l e)) = head b) /\
  (bits_stack b = true -> tail (buf (pop_elements n b d l e)) = tail b).
Proof.
  induction n as [| n IH]; intros b d l e; simpl.
  - auto.
  - pose proof (pop_bytes_store (Z.to_nat (width b)) b d e 0) as Hb.
    pose proof (pop_bytes_shape (Z.to_nat (width b)) b d e 0) as Hs.
    destruct (pop_bytes (Z.to_nat (width b)) b d e 0)
      as [[b' d'] | [[b' d'] k]]; destruct Hb as (Hd & Hh & Ht).
    + intros Hu. destruct (IH b' d' l (uint (e + 1)) Hu) as (IHd & IHh & IHt).
      rewrite (proj2 (same_shape_bits _ _ Hs)) in IHh, IHt.
      split; [congruence |].
      split; intros Hst; [rewrite IHh, Hh | rewrite IHt, Ht]; auto.
    + simpl. intros ->. simpl. auto.
Qed.

(** X9.  On every buffer reached through the public interface,
    [popFromBuffer] never writes the storage block, and it moves one cursor
    only: in queue mode [head] stays where it was, in stack mode [tail]
    stays where it was. *)
Theorem pop_reads_only (n w cfg : Z) (b : buffer_t) (d : list byte) (l : Z) :
  0 < n -> 0 < w <= UCHAR_MAX -> representable n w ->
  reachable n w cfg b ->
  data (buf (popFromBuffer b d l)) = data b /\
  (bits_stack b = false -> head (buf (popFromBuffer b d l)) = head b) /\
  (bits_stack b = true -> tail (buf (popFromBuffer b d l)) = tail b).
Proof.
  intros Hn Hw Hr Hreach.
  destruct (reachable_aligned n w cfg b Hn Hw Hr Hreach) as (Hb & Hwd & Ho).
  subst w. apply pop_elements_store.
  apply (popFromBuffer_aligned b d l Hb Ho).
Qed.

Lemma pop_reads_only_witness :
  data (buf (popFromBuffer queue34_refilled twelve 2)) = data queue34_refilled /\
  (bits_stack queue34_refilled = false ->
   head (buf (popFromBuffer queue34_refilled twelve 2)) = head queue34_refilled) /\
  (bits_stack queue34_refilled = true ->
   tail (buf (popFromBuffer queue34_refilled twelve 2)) = tail queue34_refilled).
Proof.
  apply (pop_reads_only 3 4 (Z.land B_QUEUE B_DROP) queue34_refilled twelve 2).
  - reflexivity.
  - split; [reflexivity | discriminate].
  - discriminate.
  - exact queue34_refilled_reachable.
Defined.

(** ** What a dropping push delivers *)

Lemma push_bytes_drop_contents n : forall b d e bi,
  cursors_ok b -> bits_overwrite b = false ->
  last_offset b < Z.of_nat (length (data b)) ->
  match push_bytes n b d e bi with
  | inl b' =>
      contents b' = contents b ++ bytes_at d (uint (e * width b) + bi) n
  | inr (b', k) =>
      contents b' =
        contents b ++ bytes_at d (uint (e * width b) + bi) (Z.to_nat (k - bi))
  end.
Proof.
  induction n as [| n IH]; intros b d e bi Hc Hov Hlen.
  - simpl. rewrite app_nil_r. reflexivity.
  - cbn [push_bytes]. rewrite Hov, orb_false_r.
    destruct (isBufferFull b) eqn:Hfull; simpl negb; cbv iota.
    + rewrite Z.sub_diag. simpl. rewrite app_nil_r. reflexivity.
    + set (x := load d (uint (e * width b) + bi)).
      pose proof (pushByte_shape b x) as Hs.
      pose proof (pushByte_contents b x Hc Hfull Hlen) as Hcont.
      pose proof (push_bytes_drop n (pushByte b x) d e (bi + 1)
                    (pushByte_cursors _ _ Hc)) as Hk.
      specialize (IH (pushByte b x) d e (bi + 1) (pushByte_cursors _ _ Hc)).
      rewrite (proj1 (same_shape_bits _ _ Hs)) in IH, Hk.
      rewrite (same_shape_last_offset _ _ Hs) in IH.
      assert (Hw : width (pushByte b x) = width b) by apply Hs.
      assert (Hl : length (data (pushByte b x)) = length (data b)) by apply Hs.
      rewrite Hw, Hl, Hcont in IH. specialize (IH Hov Hlen). specialize (Hk Hov).
      destruct (push_bytes n (pushByte b x) d e (bi + 1)) as [b' | [b' k]].
      * rewrite IH, <- app_assoc. cbn [bytes_at app]. fold x.
        rewrite Z.add_assoc. reflexivity.
      * destruct Hk as (_ & Hk & _).
        pose proof (occupancy_range _ (pushByte_cursors b x Hc)) as Hr.
        rewrite (same_shape_last_offset _ _ Hs) in Hk, Hr.
        rewrite IH, <- app_assoc.
        replace (Z.to_nat (k - bi)) with (S (Z.to_nat (k - (bi + 1)))) by lia.
        cbn [bytes_at app]. fold x. rewrite Z.add_assoc. reflexivity.
Qed.

Lemma retreat_contents b :
  cursors_ok b -> isBufferEmpty b = false ->
  let b' := set_head b (decrement b (head b)) in
  cursors_ok b' /\ occupancy b' = occupancy b - 1 /\
  exists x, contents b = contents b' ++ [x].
Proof.
  intros Hc Hne b'.
  pose proof (occupancy_range b Hc) as Ho.
  pose proof (isBufferEmpty_occupancy b Hc) as He. rewrite Hne in He.
  symmetry in He. apply Z.eqb_neq in He.
  assert (Hc' : cursors_ok b').
  { destruct Hc as [Hh Ht]. split; [apply (decrement_range b _ Hh) | exact Ht]. }
  assert (Ho' : occupancy b' = occupancy b - 1).
  { destruct Hc as [Hh Ht]. unfold isBufferEmpty in Hne.
    unfold b', occupancy, decrement. simpl.
    change (last_offset (set_head b _)) with (last_offset b).
    zcases; lia. }
  split; [exact Hc' |]. split; [exact Ho' |].
  exists (load (data b) (ring_pos b (tail b) (occupancy b - 1))).
  unfold contents at 1.
  replace (Z.to_nat (occupancy b)) with (S (Z.to_nat (occupancy b - 1))) by lia.
  rewrite seq_S, map_app. cbn [map Nat.add].
  rewrite Z2Nat.id by lia. f_equal.
  unfold contents. rewrite Ho'. reflexivity.
Qed.

Lemma push_undo_contents k : forall b,
  cursors_ok b -> Z.of_nat k <= occupancy b ->
  exists xs, contents b = contents (push_undo k b) ++ xs /\ length xs = k.
Proof.
  induction k as [| k IH]; intros b Hc Hk.
  - exists []. simpl. rewrite app_nil_r. auto.
  - assert (Hne : isBufferEmpty b = false).
    { rewrite isBufferEmpty_occupancy by assumption. apply Z.eqb_neq. lia. }
    destruct (retreat_contents b Hc Hne) as (Hc' & Ho' & x & Hx).
    destruct (IH _ Hc') as (xs & Hxs & Hlen); [lia |].
    exists (xs ++ [x]). cbn [push_undo].
    rewrite Hx, Hxs, <- app_assoc, length_app. simpl. split; [reflexivity | lia].
Qed.

Lemma push_elements_prefix n : forall b d l e,
  cursors_ok b -> bits_overwrite b = false ->
  last_offset b < Z.of_nat (length (data b)) -> 0 < width b ->
  0 <= e -> e + Z.of_nat n = l -> l * width b <= UINT_MAX ->
  let fits := (last_offset b - occupancy b) / width b in
  contents (buf (push_elements n b d l e)) =
    contents b ++
    bytes_at d (e * width b) (Z.to_nat (Z.min (Z.of_nat n) fits * width b)).
Proof.
  induction n as [| n IH]; intros b d l e Hc Hov Hlen Hw He Hl Hmax fits.
  - pose proof (occupancy_range b Hc) as Ho.
    assert (0 <= fits) by (apply Z.div_pos; lia).
    cbn [push_elements buf].
    replace (Z.min (Z.of_nat 0) fits) with 0 by lia.
    rewrite Z.mul_0_l. cbn [Z.to_nat bytes_at]. rewrite app_nil_r. reflexivity.
  - cbn [push_elements].
    pose proof (occupancy_range b Hc) as Ho.
    pose proof (push_bytes_drop (Z.to_nat (width b)) b d e 0 Hc Hov) as Hb.
    pose proof (push_bytes_drop_contents (Z.to_nat (width b)) b d e 0
                  Hc Hov Hlen) as Hcont.
    pose proof (push_bytes_keeps (Z.to_nat (width b)) b d e 0 Hc) as Hk.
    rewrite Z2Nat.id in Hb by lia.
    rewrite uint_small, Z.add_0_r in Hcont by nia.
    destruct (push_bytes (Z.to_nat (width b)) b d e 0) as [b' | [b' k]];
      destruct Hk as [Hs Hc'].
    + destruct Hb as (Hfit & Ho' & _).
      assert (Hw' : width b' = width b) by apply Hs.
      assert (HL' : last_offset b' = last_offset b)
        by apply (same_shape_last_offset _ _ Hs).
      assert (Hlen' : last_offset b' < Z.of_nat (length (data b'))).
      { rewrite HL'. destruct Hs as (_ & _ & _ & ->). assumption. }
      assert (Hov' : bits_overwrite b' = false).
      { rewrite (proj1 (same_shape_bits _ _ Hs)). assumption. }
      rewrite (uint_small (e + 1)) by nia.
      rewrite (IH b' d l (e + 1) Hc' Hov' Hlen');
        rewrite ?Hw'; try assumption; try lia.
      * rewrite Hcont, HL', Ho', <- app_assoc. f_equal.
        destruct (div_mod_step (last_offset b - occupancy b) (width b))
          as [Hq _]; [lia | lia |].
        replace (last_offset b - (occupancy b + width b))
          with (last_offset b - occupancy b - width b) by lia.
        rewrite Hq. fold fits.
        assert (Hf1 : 1 <= fits).
        { pose proof (Z.div_pos (last_offset b - occupancy b - width b)
                        (width b)). unfold fits. lia. }
        replace (Z.to_nat (Z.min (Z.of_nat (S n)) fits * width b))
          with (Z.to_nat (width b) +
                Z.to_nat (Z.min (Z.of_nat n) (fits - 1) * width b))%nat by nia.
        rewrite bytes_at_add. do 2 f_equal. lia.
    + destruct Hb as (Hfit & Hk' & Ho' & _).
      rewrite Z.add_0_l in Hk'. rewrite Z.sub_0_r in Hcont.
      assert (Hfits : fits = 0) by (apply Z.div_small; lia).
      rewrite Hfits. replace (Z.min (Z.of_nat (S n)) 0) with 0 by lia.
      simpl. rewrite app_nil_r.
      destruct (push_undo_contents (Z.to_nat k) b' Hc') as (xs & Hxs & Hxl);
        [lia |].
      rewrite Hxs in Hcont. apply app_inj_2 in Hcont.
      * apply Hcont.
      * rewrite bytes_at_length. exact Hxl.
Qed.

Lemma bytes_at_take d (n : nat) :
  (n <= length d)%nat -> bytes_at d 0 n = take n d.
Proof.
  intros Hn. pose proof (bytes_at_middle (take n d) [] (drop n d)) as H.
  simpl in H. rewrite take_drop, length_take_le in H by assumption. exact H.
Qed.

(** X10.  Under the dropping policy [pushToBuffer] delivers a prefix of
    whole elements and nothing else: with room for [fits] elements, the
    bytes already held stay as they were, the first [min l fits] elements
    of the source block are appended in order, the call returns the number
    of elements left over, and [tail] does not move; bytes of a partial
    element written before the buffer filled up leave no trace in the
    contents. *)
Theorem push_drop_delivers_prefix (b : buffer_t) (d : list byte) (l : Z) :
  cursors_ok b -> last_offset b < Z.of_nat (length (data b)) ->
  0 < width b -> bits_overwrite b = false ->
  0 <= l -> l * width b <= UINT_MAX ->
  Z.of_nat (length d) = l * width b ->
  let fits := (last_offset b - occupancy b) / width b in
  let o := pushToBuffer b d l in
  failed o = l - Z.min l fits /\
  contents (buf o) = contents b ++ take (Z.to_nat (Z.min l fits * width b)) d /\
  tail (buf o) = tail b.
Proof.
  intros Hc Hlen Hw Hov Hl Hmax Hd fits o. subst o. unfold pushToBuffer.
  pose proof (occupancy_range b Hc) as Ho.
  assert (Hfits : 0 <= fits) by (apply Z.div_pos; lia).
  pose proof (push_elements_drop (Z.to_nat l) b d l 0 Hc Hov Hw
                ltac:(lia) ltac:(lia) ltac:(nia)) as H.
  cbv zeta in H. rewrite Z2Nat.id in H by lia. fold fits in H.
  destruct H as (Ht & Hok & Hfail).
  split; [| split; [| exact Ht]].
  - destruct (Z.le_gt_cases l fits) as [Hle | Hgt].
    + destruct (Hok Hle) as [-> _]. lia.
    + destruct (Hfail Hgt) as [-> _]. lia.
  - rewrite (push_elements_prefix (Z.to_nat l) b d l 0);
      try assumption; try lia.
    rewrite Z2Nat.id by lia. fold fits. rewrite Z.mul_0_l.
    f_equal. apply bytes_at_take. nia.
Qed.

Lemma push_drop_delivers_prefix_witness :
  let fits := (last_offset queue_partial - occupancy queue_partial)
              / width queue_partial in
  let o := pushToBuffer queue_partial twelve 3 in
  failed o = 3 - Z.min 3 fits /\
  contents (buf o) =
    contents queue_partial ++
    take (Z.to_nat (Z.min 3 fits * width queue_partial)) twelve /\
  tail (buf o) = tail queue_partial.
Proof.
  apply (push_drop_delivers_prefix queue_partial twelve 3); by_evaluation.
Defined.

(** ** What an overwriting push leaves in the buffer *)

Lemma keep_last_all {A : Type} (n : nat) (l : list A) :
  (length l <= n)%nat -> keep_last n l = l.
Proof.
  intros H. unfold keep_last.
  replace (length l - n)%nat with 0%nat by lia. apply drop_0.
Qed.

Lemma keep_last_app {A : Type} (n : nat) (l k : list A) :
  keep_last n (keep_last n l ++ k) = keep_last n (l ++ k).
Proof.
  destruct (Nat.le_gt_cases (length l) n) as [Hle | Hgt].
  - rewrite (keep_last_all n l Hle). reflexivity.
  - unfold keep_last. rewrite !length_app, length_drop.
    rewrite !drop_app, drop_drop, length_drop. f_equal.
    + f_equal. lia.
    + f_equal. lia.
Qed.

Lemma pushByte_overwrite_keep b x :
  cursors_ok b -> bits_overwrite b = true ->
  last_offset b < Z.of_nat (length (data b)) ->
  contents (pushByte b x) =
    keep_last (Z.to_nat (last_offset b)) (contents b ++ [x]).
Proof.
  intros Hc Hov Hlen.
  pose proof (occupancy_range b Hc) as Ho.
  pose proof (isBufferFull_occupancy b Hc) as Hf.
  pose proof (contents_length b) as Hcl.
  destruct (isBufferFull b) eqn:Hfull; symmetry in Hf.
  - apply Z.eqb_eq in Hf.
    rewrite pushByte_full_overwrite_contents by assumption.
    unfold keep_last. rewrite length_app, Hcl, Hf. simpl length.
    f_equal. lia.
  - apply Z.eqb_neq in Hf.
    rewrite pushByte_contents by assumption.
    symmetry. apply keep_last_all. rewrite length_app, Hcl. simpl. lia.
Qed.

Lemma push_bytes_overwrite_contents n : forall b d e bi,
  cursors_ok b -> bits_overwrite b = true ->
  last_offset b < Z.of_nat (length (data b)) ->
  exists b', push_bytes n b d e bi = inl b' /\
    contents b' =
      keep_last (Z.to_nat (last_offset b))
        (contents b ++ bytes_at d (uint (e * width b) + bi) n).
Proof.
  induction n as [| n IH]; intros b d e bi Hc Hov Hlen.
  - exists b. split; [reflexivity |]. simpl. rewrite app_nil_r.
    symmetry. apply keep_last_all. rewrite contents_length.
    pose proof (occupancy_range b Hc). lia.
  - cbn [push_bytes bytes_at]. rewrite Hov, orb_true_r.
    set (x := load d (uint (e * width b) + bi)).
    pose proof (pushByte_shape b x) as Hs.
    pose proof (pushByte_overwrite_keep b x Hc Hov Hlen) as Hcont.
    destruct (IH (pushByte b x) d e (bi + 1)) as (b' & Hrun & Hc').
    + apply pushByte_cursors. assumption.
    + rewrite (proj1 (same_shape_bits _ _ Hs)). assumption.
    + rewrite (same_shape_last_offset _ _ Hs).
      destruct Hs as (_ & _ & _ & ->). assumption.
    + exists b'. split; [exact Hrun |].
      rewrite Hc', Hcont, (same_shape_last_offset _ _ Hs), keep_last_app.
      destruct Hs as (_ & -> & _).
      rewrite <- app_assoc, Z.add_assoc. reflexivity.
Qed.

Lemma push_elements_overwrite_reads n : forall b d l e,
  cursors_ok b -> bits_overwrite b = true ->
  last_offset b < Z.of_nat (length (data b)) ->
  contents (buf (push_elements n b d l e)) =
    keep_last (Z.to_nat (last_offset b))
      (contents b ++ source_bytes d (width b) n e).
Proof.
  induction n as [| n IH]; intros b d l e Hc Hov Hlen.
  - simpl. rewrite app_nil_r. symmetry. apply keep_last_all.
    rewrite contents_length. pose proof (occupancy_range b Hc). lia.
  - cbn [push_elements source_bytes].
    destruct (push_bytes_overwrite_contents (Z.to_nat (width b)) b d e 0
                Hc Hov Hlen) as (b' & Hrun & Hcont).
    pose proof (push_bytes_keeps (Z.to_nat (width b)) b d e 0 Hc) as Hk.
    rewrite Hrun in *. destruct Hk as [Hs Hc'].
    rewrite Z.add_0_r in Hcont.
    assert (Hw' : width b' = width b) by apply Hs.
    assert (HL' : last_offset b' = last_offset b)
      by apply (same_shape_last_offset _ _ Hs).
    assert (Hlen' : last_offset b' < Z.of_nat (length (data b'))).
    { rewrite HL'. destruct Hs as (_ & _ & _ & ->). assumption. }
    assert (Hov' : bits_overwrite b' = true).
    { rewrite (proj1 (same_shape_bits _ _ Hs)). assumption. }
    rewrite (IH b' d l (uint (e + 1)) Hc' Hov' Hlen').
    rewrite HL', Hw', Hcont, keep_last_app, <- app_assoc. reflexivity.
Qed.

Lemma source_bytes_in_order n : forall d w e,
  0 < w -> 0 <= e -> (e + Z.of_nat n) * w <= UINT_MAX ->
  source_bytes d w n e = bytes_at d (e * w) (n * Z.to_nat w).
Proof.
  induction n as [| n IH]; intros d w e Hw He Hmax.
  - reflexivity.
  - cbn [source_bytes Nat.mul].
    rewrite (uint_small (e * w)), (uint_small (e + 1)) by nia.
    rewrite IH by (lia || nia). rewrite bytes_at_add. do 2 f_equal. lia.
Qed.

(** X11.  Under the overwrite policy, after [pushToBuffer] the buffer
    holds the most recent bytes: the bytes held before followed by the
    bytes the call read from the source block, cut down from the front to
    the last [last_offset b] bytes, order kept.  Element [e] is read at
    source offset [e * width] reduced to [unsigned int]; when [l * width]
    fits [unsigned int] and the block is [l * width] bytes long, the bytes
    read are the block itself, in order. *)
Theorem push_overwrite_keeps_latest (b : buffer_t) (d : list byte) (l : Z) :
  cursors_ok b -> last_offset b < Z.of_nat (length (data b)) ->
  bits_overwrite b = true ->
  contents (buf (pushToBuffer b d l)) =
    keep_last (Z.to_nat (last_offset b))
      (contents b ++ source_bytes d (width b) (Z.to_nat l) 0) /\
  (0 < width b -> 0 <= l -> l * width b <= UINT_MAX ->
   Z.of_nat (length d) = l * width b ->
   source_bytes d (width b) (Z.to_nat l) 0 = d).
Proof.
  intros Hc Hlen Hov. split.
  - unfold pushToBuffer. apply push_elements_overwrite_reads; assumption.
  - intros Hw Hl Hmax Hd.
    rewrite source_bytes_in_order by lia. rewrite Z.mul_0_l.
    replace (Z.to_nat l * Z.to_nat (width b))%nat with (length d) by nia.
    apply bytes_at_all.
Qed.

Lemma push_overwrite_keeps_latest_witness :
  contents (buf (pushToBuffer ring34 (twelve ++ twelve) 6)) =
    keep_last (Z.to_nat (last_offset ring34))
      (contents ring34 ++ source_bytes (twelve ++ twelve) (width ring34)
                            (Z.to_nat 6) 0) /\
  source_bytes (twelve ++ twelve) (width ring34) (Z.to_nat 6) 0 =
    twelve ++ twelve.
Proof.
  assert (Hc : cursors_ok ring34) by by_evaluation.
  assert (Hlen : last_offset ring34 < Z.of_nat (length (data ring34)))
    by reflexivity.
  assert (Hov : bits_overwrite ring34 = true) by reflexivity.
  destruct (push_overwrite_keeps_latest ring34 (twelve ++ twelve) 6
              Hc Hlen Hov) as [H1 H2].
  split; [exact H1 |].
  apply H2; by_evaluation.
Defined.

(** ** What popFromBuffer delivers *)

Lemma blit_prefix xs d :
  (length xs <= length d)%nat -> blit d 0 xs = xs ++ drop (length xs) d.
Proof.
  intros Hlen.
  pose proof (blit_middle xs [] (take (length xs) d) (drop (length xs) d)) as H.
  simpl in H. rewrite take_drop in H. apply H.
  apply length_take_le. assumption.
Qed.

Lemma contents_bound b :
  cursors_ok b -> Z.of_nat (length (contents b)) <= UINT_MAX.
Proof.
  intros Hc. rewrite contents_length.
  pose proof (occupancy_range b Hc). pose proof (last_offset_range b). lia.
Qed.

(** X12.  Queue mode delivers the oldest elements first: when the buffer
    holds the elements [xs] followed by [post], popping [length xs]
    elements returns 0, writes [xs] in that order, bytes unchanged, at the
    start of the destination block, leaves the rest of the block as it
    was, and leaves [post] in the buffer. *)
Theorem pop_queue_oldest_first (b : buffer_t) (d : list byte)
    (xs : list (list byte)) (post : list byte) :
  cursors_ok b -> bits_stack b = false -> 0 < width b ->
  Forall (fun x => Z.of_nat (length x) = width b) xs ->
  contents b = concat xs ++ post ->
  (length (concat xs) <= length d)%nat ->
  let o := popFromBuffer b d (Z.of_nat (length xs)) in
  failed o = 0 /\
  mem o = concat xs ++ drop (length (concat xs)) d /\
  contents (buf o) = post.
Proof.
  intros Hc Hst Hw Hall Hcont Hd o. subst o. unfold popFromBuffer.
  rewrite Nat2Z.id.
  pose proof (contents_bound b Hc) as Hb.
  pose proof (concat_uniform_length xs (width b) Hall) as Hcl.
  rewrite Hcont, length_app in Hb.
  destruct (pop_elements_queue xs b d (Z.of_nat (length xs)) 0 post)
    as (Hf & Hmem & Hpost); try assumption; try lia.
  split; [exact Hf |]. split; [| exact Hpost].
  rewrite Hmem, Z.mul_0_l. apply blit_prefix. assumption.
Qed.

Lemma pop_queue_oldest_first_witness :
  let o := popFromBuffer queue34_full twelve
             (Z.of_nat (length [[x01; x02; x03; x04]; [x05; x06; x07; x08]])) in
  failed o = 0 /\
  mem o =
    concat [[x01; x02; x03; x04]; [x05; x06; x07; x08]] ++
    drop (length (concat [[x01; x02; x03; x04]; [x05; x06; x07; x08]])) twelve /\
  contents (buf o) = [x09; x0a; x0b; x0c].
Proof.
  apply (pop_queue_oldest_first queue34_full twelve
           [[x01; x02; x03; x04]; [x05; x06; x07; x08]] [x09; x0a; x0b; x0c]).
  - by_evaluation.
  - reflexivity.
  - reflexivity.
  - repeat constructor.
  - reflexivity.
  - simpl. lia.
Defined.

(** X13.  Stack mode delivers the newest elements first: when the buffer
    holds [pre] followed by the elements [xs], popping [length xs] elements
    returns 0, writes the elements of [xs] in reverse order, each with its
    bytes in their original order, at the start of the destination block,
    leaves the rest of the block as it was, and leaves [pre] in the
    buffer. *)
Theorem pop_stack_newest_first (b : buffer_t) (d : list byte)
    (xs : list (list byte)) (pre : list byte) :
  cursors_ok b -> bits_stack b = true -> 0 < width b ->
  Forall (fun x => Z.of_nat (length x) = width b) xs ->
  contents b = pre ++ concat xs ->
  (length (concat xs) <= length d)%nat ->
  let o := popFromBuffer b d (Z.of_nat (length xs)) in
  failed o = 0 /\
  mem o = concat (rev xs) ++ drop (length (concat xs)) d /\
  contents (buf o) = pre.
Proof.
  intros Hc Hst Hw Hall Hcont Hd o. subst o. unfold popFromBuffer.
  rewrite Nat2Z.id.
  pose proof (contents_bound b Hc) as Hb.
  pose proof (concat_uniform_length xs (width b) Hall) as Hcl.
  assert (Hrl : length (concat (rev xs)) = length (concat xs)).
  { apply Nat2Z.inj. rewrite Hcl.
    rewrite (concat_uniform_length (rev xs) (width b))
      by (apply Forall_rev; assumption).
    rewrite length_rev. reflexivity. }
  rewrite Hcont, length_app in Hb.
  destruct (pop_elements_stack xs b d (Z.of_nat (length xs)) 0 pre)
    as (Hf & Hmem & Hpre); try assumption; try lia.
  split; [exact Hf |]. split; [| exact Hpre].
  rewrite Hmem, Z.mul_0_l, <- Hrl. apply blit_prefix. lia.
Qed.

Lemma pop_stack_newest_first_witness :
  let b := run stack34 [Push twelve 3] in
  let xs := [[x05; x06; x07; x08]; [x09; x0a; x0b; x0c]] in
  let o := popFromBuffer b twelve (Z.of_nat (length xs)) in
  failed o = 0 /\
  mem o = concat (rev xs) ++ drop (length (concat xs)) twelve /\
  contents (buf o) = [x01; x02; x03; x04].
Proof.
  apply (pop_stack_newest_first (run stack34 [Push twelve 3]) twelve
           [[x05; x06; x07; x08]; [x09; x0a; x0b; x0c]] [x01; x02; x03; x04]).
  - by_evaluation.
  - reflexivity.
  - reflexivity.
  - repeat constructor.
  - reflexivity.
  - simpl. lia.
Defined.

(** ** Asking for more than the buffer holds *)

Lemma pop_elements_any_l n : forall b d l l' e,
  buf (pop_elements n b d l e) = buf (pop_elements n b d l' e) /\
  mem (pop_elements n b d l e) = mem (pop_elements n b d l' e) /\
  undone (pop_elements n b d l e) = undone (pop_elements n b d l' e).
Proof.
  induction n as [| n IH]; intros b d l l' e; simpl.
  - auto.
  - destruct (pop_bytes (Z.to_nat (width b)) b d e 0)
      as [[b' d'] | [[b' d'] k]]; [apply IH | simpl; auto].
Qed.

Lemma pop_elements_more n : forall m b d l e,
  cursors_ok b -> 0 < width b ->
  Z.of_nat n * width b <= occupancy b ->
  0 <= e -> e + Z.of_nat n <= UINT_MAX ->
  pop_elements (n + m) b d l e =
  pop_elements m (buf (pop_elements n b d l e)) (mem (pop_elements n b d l e))
    l (e + Z.of_nat n).
Proof.
  induction n as [| n IH]; intros m b d l e Hc Hw Hocc He Hmax.
  - simpl. rewrite Z.add_0_r. reflexivity.
  - cbn [Nat.add pop_elements].
    pose proof (pop_bytes_occupancy (Z.to_nat (width b)) b d e 0 Hc) as Hb.
    pose proof (pop_bytes_keeps (Z.to_nat (width b)) b d e 0 Hc) as Hk.
    rewrite Z2Nat.id in Hb by lia.
    destruct (pop_bytes (Z.to_nat (width b)) b d e 0)
      as [[b' d'] | [[b' d'] k]]; [| nia].
    destruct Hb as [_ Ho']. destruct Hk as [Hs Hc'].
    assert (Hw' : width b' = width b) by apply Hs.
    rewrite (uint_small (e + 1)) by lia.
    rewrite IH; rewrite ?Hw', ?Ho'; try assumption; try lia.
    f_equal. lia.
Qed.

Lemma pop_elements_on_empty m : forall b d l e,
  0 < width b -> isBufferEmpty b = true ->
  pop_elements m b d l e =
  match m with
  | O => mkOutcome b d 0 0
  | S _ => mkOutcome b d (uint (l - e)) 0
  end.
Proof.
  intros b d l e Hw He. destruct m as [| m]; [reflexivity |].
  cbn [pop_elements].
  destruct (Z.to_nat (width b)) as [| k] eqn:Ek; [lia |].
  simpl. rewrite He. reflexivity.
Qed.

(** X14.  A short read: when the buffer holds exactly the elements [xs]
    and [l >= length xs] elements are requested, [popFromBuffer] delivers
    all of [xs] (in push order for a queue, newest first for a stack),
    returns the shortfall [l - length xs], pushes nothing back, leaves the
    destination beyond the delivered bytes as it was, and leaves the
    buffer empty. *)
Theorem pop_short_read (b : buffer_t) (d : list byte)
    (xs : list (list byte)) (l : Z) :
  cursors_ok b -> 0 < width b ->
  Forall (fun x => Z.of_nat (length x) = width b) xs ->
  contents b = concat xs ->
  Z.of_nat (length xs) <= l <= UINT_MAX ->
  (length (concat xs) <= length d)%nat ->
  let o := popFromBuffer b d l in
  failed o = l - Z.of_nat (length xs) /\
  undone o = 0 /\
  mem o = concat (if bits_stack b then rev xs else xs) ++
          drop (length (concat xs)) d /\
  isBufferEmpty (buf o) = true.
Proof.
  intros Hc Hw Hall Hcont Hl Hd o. subst o. unfold popFromBuffer.
  set (k := length xs) in *.
  pose proof (contents_bound b Hc) as Hb.
  pose proof (concat_uniform_length xs (width b) Hall) as Hcl. fold k in Hcl.
  pose proof (contents_length b) as Hlen.
  pose proof (occupancy_range b Hc) as Ho.
  rewrite Hcont in Hb, Hlen.
  replace (Z.to_nat l) with (k + Z.to_nat (l - Z.of_nat k))%nat by lia.
  rewrite pop_elements_more by (assumption || lia).
  destruct (pop_elements_any_l k b d l (Z.of_nat k) 0) as (-> & -> & _).
  set (o1 := pop_elements k b d (Z.of_nat k) 0).
  assert (Hrl : length (concat (rev xs)) = length (concat xs)).
  { apply Nat2Z.inj. rewrite Hcl.
    rewrite (concat_uniform_length (rev xs) (width b))
      by (apply Forall_rev; assumption).
    rewrite length_rev. reflexivity. }
  assert (H1 : mem o1 = concat (if bits_stack b then rev xs else xs) ++
                        drop (length (concat xs)) d /\
               contents (buf o1) = []).
  { unfold o1, k. destruct (bits_stack b) eqn:Hst.
    - destruct (pop_elements_stack xs b d (Z.of_nat (length xs)) 0 [])
        as (_ & Hm & Hp); try assumption; try (fold k; lia).
      split; [| exact Hp].
      rewrite Hm, Z.mul_0_l, <- Hrl. apply blit_prefix. lia.
    - destruct (pop_elements_queue xs b d (Z.of_nat (length xs)) 0 [])
        as (_ & Hm & Hp); try assumption; try (fold k; lia).
      { rewrite app_nil_r. assumption. }
      split; [| exact Hp].
      rewrite Hm, Z.mul_0_l. apply blit_prefix. assumption. }
  destruct H1 as [Hmem Hnil].
  destruct (pop_elements_keeps k b d (Z.of_nat k) 0 Hc) as [Hs Hc1].
  fold o1 in Hs, Hc1.
  assert (He1 : isBufferEmpty (buf o1) = true)
    by (apply empty_contents; assumption).
  rewrite pop_elements_on_empty; [| | exact He1].
  - destruct (Z.to_nat (l - Z.of_nat k)) eqn:Em; cbn [failed undone mem buf];
      rewrite ?uint_small by lia; repeat split; auto; lia.
  - destruct Hs as (_ & -> & _). assumption.
Qed.

Lemma pop_short_read_witness :
  let xs := [[x01; x02; x03; x04]; [x05; x06; x07; x08]; [x09; x0a; x0b; x0c]] in
  let o := popFromBuffer queue34_full (twelve ++ dest4) 5 in
  failed o = 5 - Z.of_nat (length xs) /\
  undone o = 0 /\
  mem o = concat (if bits_stack queue34_full then rev xs else xs) ++
          drop (length (concat xs)) (twelve ++ dest4) /\
  isBufferEmpty (buf o) = true.
Proof.
  apply (pop_short_read queue34_full (twelve ++ dest4)
           [[x01; x02; x03; x04]; [x05; x06; x07; x08]; [x09; x0a; x0b; x0c]] 5).
  - by_evaluation.
  - reflexivity.
  - repeat constructor.
  - reflexivity.
  - by_evaluation.
  - simpl. lia.
Defined.

(** ** Usable capacity of a new buffer *)

(** X15.  A newly constructed dropping buffer of [n] elements accepts
    exactly [n] elements: a first [pushToBuffer] of [l] elements returns
    the excess [max 0 (l - n)], leaves [min l n] elements in the buffer,
    and leaves the buffer full exactly when [l >= n]. *)
Theorem new_buffer_capacity (n w cfg : Z) (d : list byte) (l : Z) :
  0 < n -> 0 < w <= UCHAR_MAX -> representable n w ->
  bits_overwrite (fresh n w cfg) = false -> 0 <= l <= UINT_MAX ->
  let o := pushToBuffer (fresh n w cfg) d l in
  newBuffer true true n w cfg = (Some (fresh n w cfg), 2%nat) /\
  failed o = Z.max 0 (l - n) /\
  occupancy (buf o) = Z.min l n * w /\
  isBufferFull (buf o) = (n <=? l).
Proof.
  intros Hn Hw Hr Hov Hl o. subst o.
  split; [apply newBuffer_success |].
  pose proof (fresh_ok n w cfg Hn Hw Hr) as Hb.
  pose proof (fresh_last_offset n w cfg ltac:(lia) ltac:(lia) Hr) as HL.
  assert (Hc : cursors_ok (fresh n w cfg)) by apply Hb.
  assert (Ho : occupancy (fresh n w cfg) = 0) by reflexivity.
  pose proof (push_elements_drop (Z.to_nat l) (fresh n w cfg) d l 0 Hc Hov
                ltac:(simpl; lia) ltac:(lia) ltac:(lia) ltac:(lia)) as H.
  cbv zeta in H. rewrite Z2Nat.id, HL, Ho, Z.sub_0_r in H by lia.
  change (width (fresh n w cfg)) with w in H.
  rewrite Z.div_mul in H by lia.
  fold (pushToBuffer (fresh n w cfg) d l) in H.
  destruct H as (_ & Hok & Hfail).
  destruct (pushToBuffer_ok (fresh n w cfg) d l Hb) as [Hb' Hs].
  assert (Hc' : cursors_ok (buf (pushToBuffer (fresh n w cfg) d l)))
    by apply Hb'.
  rewrite (isBufferFull_occupancy _ Hc'), (same_shape_last_offset _ _ Hs), HL.
  destruct (Z.le_gt_cases l n) as [Hle | Hgt].
  - destruct (Hok Hle) as (-> & _ & -> & _).
    rewrite Z.add_0_l. replace (Z.min l n) with l by lia.
    repeat split; try lia; zcases; nia.
  - destruct (Hfail Hgt) as (-> & _ & -> & _).
    rewrite Z.add_0_l. replace (Z.min l n) with n by lia.
    repeat split; try lia; zcases; nia.
Qed.

Lemma new_buffer_capacity_witness :
  let o := pushToBuffer (fresh 3 4 (Z.land B_QUEUE B_DROP)) twelve 5 in
  newBuffer true true 3 4 (Z.land B_QUEUE B_DROP) =
    (Some (fresh 3 4 (Z.land B_QUEUE B_DROP)), 2%nat) /\
  failed o = Z.max 0 (5 - 3) /\
  occupancy (buf o) = Z.min 5 3 * 4 /\
  isBufferFull (buf o) = (3 <=? 5).
Proof.
  apply (new_buffer_capacity 3 4 (Z.land B_QUEUE B_DROP) twelve 5);
    by_evaluation.
Defined.

(** * Sizes that wrap in unsigned int *)

(** The cursor arithmetic looks at the cursors, [depth], [width] and
    [behavior] only, so these facts hold whatever the storage block
    contains; they are stated for any buffer with the given fields. *)

Lemma at_last_offset_0 (b : buffer_t) :
  head b = 0 -> tail b = 0 -> depth b = 1073741825 -> width b = 4 ->
  last_offset b = 0 /\ isBufferEmpty b = true /\ isBufferFull b = true.
Proof.
  destruct b as [m h t dp w bh]. simpl. intros -> -> -> ->.
  vm_compute. auto.
Qed.

Lemma at_last_offset_2_dropping (b : buffer_t) :
  head b = 0 -> tail b = 0 -> depth b = 1431655767 -> width b = 3 ->
  behavior b = Z.land B_QUEUE B_DROP ->
  last_offset b = 2 /\
  failed (pushToBuffer b three 1) = 1 /\
  undone (pushToBuffer b three 1) = 2 /\
  isBufferEmpty (buf (pushToBuffer b three 1)) = true /\
  failed (popFromBuffer (buf (pushToBuffer b three 1)) dest4 1) = 1 /\
  mem (popFromBuffer (buf (pushToBuffer b three 1)) dest4 1) = dest4.
Proof.
  destruct b as [m h t dp w bh]. simpl. intros -> -> -> -> ->.
  vm_compute. repeat split; reflexivity.
Qed.

Lemma at_last_offset_2_overwriting (b : buffer_t) :
  head b = 0 -> tail b = 0 -> depth b = 1431655767 -> width b = 3 ->
  behavior b = Z.land B_QUEUE B_OVERWRITE ->
  failed (pushToBuffer b three 1) = 0 /\
  occupancy (buf (pushToBuffer b three 1)) = 2 /\
  occupancy (buf (pushToBuffer b three 1)) mod 3 = 2 /\
  failed (popFromBuffer (buf (pushToBuffer b three 1)) dest4 1) = 1 /\
  undone (popFromBuffer (buf (pushToBuffer b three 1)) dest4 1) = 2.
Proof.
  destruct b as [m h t dp w bh]. simpl. intros -> -> -> -> ->.
  vm_compute. repeat split; reflexivity.
Qed.

Lemma wrapped_fields (n w cfg dp : Z) :
  uint (n + 1) = dp ->
  head (fresh n w cfg) = 0 /\ tail (fresh n w cfg) = 0 /\
  depth (fresh n w cfg) = dp /\ width (fresh n w cfg) = w /\
  behavior (fresh n w cfg) = cfg.
Proof. intros <-. unfold fresh. simpl. auto. Qed.

Lemma fresh_reachable n w cfg : reachable n w cfg (fresh n w cfg).
Proof. apply (reach_new _ _ _ _ 2%nat), newBuffer_success. Qed.

(** ** What the public interface does at those sizes *)

(** C8, evaluated.  [newBuffer(UINT_MAX, 4, ...)] with both allocations
    succeeding stores [depth = 0] and a storage block of 0 bytes, not
    [(capacity + 1) * elementWidth]; [newBuffer(2^30, 4, ...)] returns a
    buffer whose last offset is 0, which reports full (and empty)
    immediately after construction. *)
Theorem newBuffer_size_wraps :
  newBuffer true true 4294967295 4 (Z.land B_QUEUE B_DROP)
    = (Some slots_wrap, 2%nat) /\
  depth slots_wrap = 0 /\ data slots_wrap = [] /\
  newBuffer true true 1073741824 4 (Z.land B_QUEUE B_DROP)
    = (Some offset_wraps_to_0, 2%nat) /\
  last_offset offset_wraps_to_0 = 0 /\
  isBufferEmpty offset_wraps_to_0 = true /\
  isBufferFull offset_wraps_to_0 = true.
Proof.
  split; [apply newBuffer_success |].
  split; [reflexivity |]. split; [reflexivity |].
  split; [apply newBuffer_success |].
  destruct (wrapped_fields 1073741824 4 (Z.land B_QUEUE B_DROP) 1073741825
              eq_refl) as (Hh & Ht & Hd & Hw & _).
  apply (at_last_offset_0 offset_wraps_to_0 Hh Ht Hd Hw).
Qed.

(** C9, evaluated.  [newBuffer(UINT_MAX, 4, ...)] has a storage block of
    0 bytes and last offset [2^32 - 4]; one [pushToBuffer] of a single
    element succeeds, stores four bytes through [head] and leaves [head]
    at offset 4, outside the block. *)
Theorem cursor_leaves_storage_when_slots_wrap :
  let o := pushToBuffer slots_wrap four 1 in
  reachable 4294967295 4 (Z.land B_QUEUE B_DROP) (buf o) /\
  last_offset slots_wrap = 4294967292 /\
  failed o = 0 /\
  length (data (buf o)) = 0%nat /\
  head (buf o) = 4 /\ tail (buf o) = 0 /\
  Z.of_nat (length (data (buf o))) < head (buf o).
Proof.
  split.
  - apply reach_push; [apply fresh_reachable | by_evaluation].
  - by_evaluation.
Qed.

(** C10, evaluated.  [newBuffer(1431655766, 3, ...)] has last offset 2.
    Dropping: the first [pushToBuffer] of one element fails after two
    bytes and runs its undo loop twice.  Overwriting: the same push
    leaves 2 bytes occupied, not a multiple of the width 3, and the next
    [popFromBuffer] meets the empty buffer at [byteIndex = 2] and runs its
    push-back loop twice. *)
Theorem partial_element_when_offset_wraps :
  let o := pushToBuffer offset_wraps_to_2 three 1 in
  let p := pushToBuffer offset_wraps_to_2_overwriting three 1 in
  reachable 1431655766 3 (Z.land B_QUEUE B_DROP) offset_wraps_to_2 /\
  last_offset offset_wraps_to_2 = 2 /\
  failed o = 1 /\ undone o = 2 /\
  reachable 1431655766 3 (Z.land B_QUEUE B_OVERWRITE) (buf p) /\
  failed p = 0 /\
  occupancy (buf p) mod 3 = 2 /\
  undone (popFromBuffer (buf p) dest4 1) = 2.
Proof.
  destruct (wrapped_fields 1431655766 3 (Z.land B_QUEUE B_DROP) 1431655767
              eq_refl) as (Hh & Ht & Hd & Hw & Hb).
  destruct (at_last_offset_2_dropping offset_wraps_to_2 Hh Ht Hd Hw Hb)
    as (HL & Hf & Hu & _).
  destruct (wrapped_fields 1431655766 3 (Z.land B_QUEUE B_OVERWRITE)
              1431655767 eq_refl) as (Hh' & Ht' & Hd' & Hw' & Hb').
  destruct (at_last_offset_2_overwriting offset_wraps_to_2_overwriting
              Hh' Ht' Hd' Hw' Hb') as (Hf' & _ & Ho' & _ & Hu').
  split; [apply fresh_reachable |].
  split; [exact HL |]. split; [exact Hf |]. split; [exact Hu |].
  split.
  - apply reach_push; [apply fresh_reachable |].
    split; [discriminate | discriminate].
  - split; [exact Hf' |]. split; [exact Ho' | exact Hu'].
Qed.

(** C4, evaluated.  [newBuffer(1431655766, 3, ...)] under the dropping
    policy is empty and has capacity 1431655766, yet pushing one element
    returns 1; the buffer is still empty, and popping one element returns
    1 and leaves the destination as it was. *)
Theorem round_trip_fails_when_offset_wraps :
  let o := pushToBuffer offset_wraps_to_2 three 1 in
  let q := popFromBuffer (buf o) dest4 1 in
  newBuffer true true 1431655766 3 (Z.land B_QUEUE B_DROP)
    = (Some offset_wraps_to_2, 2%nat) /\
  isBufferEmpty offset_wraps_to_2 = true /\
  capacity offset_wraps_to_2 = 1431655766 /\
  Z.of_nat (length three) = width offset_wraps_to_2 /\
  failed o = 1 /\
  isBufferEmpty (buf o) = true /\
  failed q = 1 /\ mem q = dest4.
Proof.
  destruct (wrapped_fields 1431655766 3 (Z.land B_QUEUE B_DROP) 1431655767
              eq_refl) as (Hh & Ht & Hd & Hw & Hb).
  destruct (at_last_offset_2_dropping offset_wraps_to_2 Hh Ht Hd Hw Hb)
    as (_ & Hf & _ & He & Hq & Hm).
  split; [apply newBuffer_success |].
  split; [unfold isBufferEmpty, offset_wraps_to_2; rewrite Hh, Ht; reflexivity |].
  split; [unfold capacity, offset_wraps_to_2; rewrite Hd; reflexivity |].
  split; [unfold offset_wraps_to_2; rewrite Hw; reflexivity |].
  split; [exact Hf |]. split; [exact He |]. split; [exact Hq | exact Hm].
Qed.
